(** * Label-classification engine: density analysis, approximate matching,
      scoring and batch coordination.

    Shallow embedding of [ImageAnalysisService] and [LabelDetectionService].

    Conventions of the embedding.
    - A JavaScript string is the list of its UTF-16 code units ([jsstring]);
      [length] is therefore the JavaScript [.length].
    - A JavaScript number is an exact rational ([Q]) where the code computes
      with fractions, and a natural number where the code only counts.  The
      embedding works with finite values and exact arithmetic: rounding,
      NaN and the infinities are outside the model.  A quotient whose
      divisor is zero has no meaning in the model, and no statement below
      relies on one.
    - Calls to [Logger] have no effect on any returned value and are left
      out. *)

From Stdlib Require Import QArith Qround Qminmax Qfield Lqa.
From stdpp Require Import gmap list strings.

Local Open Scope nat_scope.

(** ** JavaScript runtime primitives used by the services *)

Module JS.

Abbreviation jsstring := (list N).

(** Source literals are written as UTF-8 text and decoded to code units. *)
Definition bytes_of (s : string) : list N :=
  (fun a => N.of_nat (Ascii.nat_of_ascii a)) <$> String.list_ascii_of_string s.

Fixpoint utf16_of_utf8 (bs : list N) : jsstring :=
  match bs with
  | [] => []
  | b :: r =>
    if (b <? 128)%N then b :: utf16_of_utf8 r
    else if (b <? 224)%N then
      match r with
      | c1 :: r1 => ((b - 192) * 64 + (c1 - 128))%N :: utf16_of_utf8 r1
      | _ => []
      end
    else if (b <? 240)%N then
      match r with
      | c1 :: c2 :: r2 =>
        ((b - 224) * 4096 + (c1 - 128) * 64 + (c2 - 128))%N :: utf16_of_utf8 r2
      | _ => []
      end
    else
      match r with
      | c1 :: c2 :: c3 :: r3 =>
        let cp := ((b - 240) * 262144 + (c1 - 128) * 4096
                   + (c2 - 128) * 64 + (c3 - 128))%N in
        let v := (cp - 65536)%N in
        (55296 + v / 1024)%N :: (56320 + v mod 1024)%N :: utf16_of_utf8 r3
      | _ => []
      end
  end.

Definition js (s : string) : jsstring := utf16_of_utf8 (bytes_of s).

(** [WhiteSpace] and [LineTerminator] code units: what [trim] strips and
    what the regular-expression class [\s] matches. *)
Definition isWhiteSpace (c : N) : bool :=
  ((9 <=? c) && (c <=? 13) || (c =? 32) || (c =? 160) || (c =? 5760)
   || (8192 <=? c) && (c <=? 8202) || (c =? 8232) || (c =? 8233)
   || (c =? 8239) || (c =? 8287) || (c =? 12288) || (c =? 65279))%N.

Definition isDigit (c : N) : bool := ((48 <=? c) && (c <=? 57))%N.

(** [\w]: ASCII letters, digits and underscore. *)
Definition isWordChar (c : N) : bool :=
  ((65 <=? c) && (c <=? 90) || (97 <=? c) && (c <=? 122)
   || isDigit c || (c =? 95))%N.

(** [.] matches everything but a line terminator. *)
Definition isLineTerminator (c : N) : bool :=
  ((c =? 10) || (c =? 13) || (c =? 8232) || (c =? 8233))%N.

(** [String.prototype.toLowerCase], code unit by code unit.  The mapping
    is the Unicode one on Basic Latin and Latin-1 Supplement, the range of
    the keyword tables; code units outside that range are left as they
    are. *)
Definition lowerUnit (c : N) : N :=
  if ((65 <=? c) && (c <=? 90))%N then (c + 32)%N
  else if ((192 <=? c) && (c <=? 222) && negb (c =? 215))%N then (c + 32)%N
  else c.

Definition toLowerCase (s : jsstring) : jsstring := lowerUnit <$> s.

Fixpoint trimStart (s : jsstring) : jsstring :=
  match s with
  | c :: r => if isWhiteSpace c then trimStart r else s
  | [] => []
  end.

Definition trim (s : jsstring) : jsstring :=
  rev (trimStart (rev (trimStart s))).

Fixpoint startsWith (p s : jsstring) : bool :=
  match p, s with
  | [], _ => true
  | a :: p', b :: s' => (a =? b)%N && startsWith p' s'
  | _ :: _, [] => false
  end.

(** [s.includes(p)] *)
Fixpoint includes (s p : jsstring) : bool :=
  startsWith p s ||
  match s with
  | [] => false
  | _ :: s' => includes s' p
  end.

(** [s.charAt(i)]: a string of one code unit, or the empty string when
    [i] is out of range (here [None]). *)
Definition charAt (s : jsstring) (i : nat) : option N := s !! i.

(** [s.split(/\s+/)]: the pieces between maximal runs of white space;
    a leading or trailing run leaves an empty piece at that end, and the
    empty string gives one empty piece. *)
Fixpoint splitWsFrom (inRun : bool) (cur : jsstring) (s : jsstring)
  : list jsstring :=
  match s with
  | [] => [rev cur]
  | c :: r =>
    if isWhiteSpace c then
      if inRun then splitWsFrom true [] r
      else rev cur :: splitWsFrom true [] r
    else splitWsFrom false (c :: cur) r
  end.

Definition splitWs (s : jsstring) : list jsstring := splitWsFrom false [] s.

(** [s.split(sep)] for a separator of one code unit. *)
Fixpoint splitOnFrom (sep : N) (cur : jsstring) (s : jsstring)
  : list jsstring :=
  match s with
  | [] => [rev cur]
  | c :: r =>
    if (c =? sep)%N then rev cur :: splitOnFrom sep [] r
    else splitOnFrom sep (c :: cur) r
  end.

Definition splitOn (sep : N) (s : jsstring) : list jsstring :=
  splitOnFrom sep [] s.

(** [a.join(sep)] *)
Fixpoint join (sep : jsstring) (l : list jsstring) : jsstring :=
  match l with
  | [] => []
  | [x] => x
  | x :: r => x ++ sep ++ join sep r
  end.

(** Decimal rendering of a non-negative integer. *)
Fixpoint digitsFuel (fuel : nat) (n : N) (acc : jsstring) : jsstring :=
  match fuel with
  | O => acc
  | S f =>
    let acc' := (48 + n mod 10)%N :: acc in
    if (n <? 10)%N then acc' else digitsFuel f (n / 10)%N acc'
  end.

Definition showN (n : N) : jsstring := digitsFuel (S (N.to_nat (N.log2 n))) n [].

Definition showNat (n : nat) : jsstring := showN (N.of_nat n).

Definition showZ (z : Z) : jsstring :=
  if (z <? 0)%Z then js "-" ++ showN (Z.to_N (- z)) else showN (Z.to_N z).

(** [x.toFixed(2)] for a number below 10^21 in magnitude: the integer [n]
    nearest to [100 x] (the larger one on a tie), printed with two
    decimals. *)
Definition toFixed2 (x : Q) : jsstring :=
  let neg := negb (Qle_bool 0 x) in
  let ax := if neg then Qopp x else x in
  let n := Z.to_N (Qfloor (ax * 100 + (1 # 2))%Q) in
  let frac := (n mod 100)%N in
  (if neg then js "-" else [])
  ++ showN (n / 100)%N ++ js "."
  ++ [(48 + frac / 10)%N; (48 + frac mod 10)%N].

End JS.

(** ** Regular expressions of the detectors

    A backtracking matcher with the priorities of the JavaScript one:
    alternatives left to right, greedy repetition, an iteration of a
    repetition that consumes nothing is rejected.  A pattern is matched
    against the code units that remain, knowing the code unit just before
    them (for [\b]). *)

Module Regex.
Import JS.

Inductive regex : Type :=
| Eps
| Chr (p : N -> bool)
| Seq (a b : regex)
| Alt (a b : regex)
| Star (a : regex)
| WordB.

Definition cont : Type := option N -> jsstring -> option (option N * jsstring).

Definition atWordBoundary (prev : option N) (s : jsstring) : bool :=
  let a := match prev with Some c => isWordChar c | None => false end in
  let b := match s with c :: _ => isWordChar c | [] => false end in
  xorb a b.

Fixpoint matchFuel (fuel : nat) : regex -> option N -> jsstring -> cont
                                  -> option (option N * jsstring) :=
  match fuel with
  | O => fun _ _ _ _ => None
  | S f =>
    fix go (r : regex) : option N -> jsstring -> cont
                         -> option (option N * jsstring) :=
      match r with
      | Eps => fun prev s k => k prev s
      | Chr p => fun prev s k =>
          match s with
          | c :: s' => if p c then k (Some c) s' else None
          | [] => None
          end
      | Seq a b => fun prev s k => go a prev s (fun p' s' => go b p' s' k)
      | Alt a b => fun prev s k =>
          match go a prev s k with
          | Some x => Some x
          | None => go b prev s k
          end
      | Star a => fun prev s k =>
          match go a prev s
                  (fun p' s' =>
                     if length s' <? length s
                     then matchFuel f (Star a) p' s' k
                     else None) with
          | Some x => Some x
          | None => k prev s
          end
      | WordB => fun prev s k =>
          if atWordBoundary prev s then k prev s else None
      end
  end.

(** One attempt at the current position: the rest of the input after the
    match and the last code unit before that rest. *)
Definition matchAt (r : regex) (prev : option N) (s : jsstring)
  : option (option N * jsstring) :=
  matchFuel (S (length s)) r prev s (fun p' s' => Some (p', s')).

(** [r.test(s)] for a pattern whose [lastIndex] is 0. *)
Fixpoint testFrom (r : regex) (prev : option N) (s : jsstring) : bool :=
  match matchAt r prev s with
  | Some _ => true
  | None =>
    match s with
    | [] => false
    | c :: s' => testFrom r (Some c) s'
    end
  end.

Definition test (r : regex) (s : jsstring) : bool := testFrom r None s.

(** Number of matches of [s.match(r)] for a global pattern (0 when the
    result is [null]): leftmost matches, each search resuming where the
    previous match ended, one code unit further after an empty match. *)
Fixpoint countFrom (fuel : nat) (r : regex) (prev : option N) (s : jsstring)
  : nat :=
  match fuel with
  | O => 0
  | S f =>
    match matchAt r prev s with
    | Some (p', s') =>
      if length s' <? length s then S (countFrom f r p' s')
      else match s with
           | [] => 1
           | c :: t => S (countFrom f r (Some c) t)
           end
    | None =>
      match s with
      | [] => 0
      | c :: t => countFrom f r (Some c) t
      end
    end
  end.

Definition matchCount (r : regex) (s : jsstring) : nat :=
  countFrom (S (length s)) r None s.

Definition unit (c : N) : regex := Chr (N.eqb c).

(** A literal code unit under the [i] flag.  Canonicalisation never maps
    a code unit outside ASCII onto an ASCII one, so an ASCII letter of the
    pattern matches its two ASCII cases only. *)
Definition asciiUpper (c : N) : N :=
  if ((97 <=? c) && (c <=? 122))%N then (c - 32)%N else c.

Definition unitI (c : N) : regex :=
  Chr (fun d => (d <? 128)%N && (asciiUpper d =? asciiUpper c)%N).

Definition lit (s : jsstring) : regex := foldr (fun c r => Seq (unit c) r) Eps s.
Definition litI (s : jsstring) : regex := foldr (fun c r => Seq (unitI c) r) Eps s.

Definition digit : regex := Chr isDigit.
Definition space : regex := Chr isWhiteSpace.
Definition dot : regex := Chr (fun c => negb (isLineTerminator c)).
Definition plus (r : regex) : regex := Seq r (Star r).
Definition opt (r : regex) : regex := Alt r Eps.
Fixpoint times (n : nat) (r : regex) : regex :=
  match n with
  | O => Eps
  | S m => Seq r (times m r)
  end.
Definition alts (l : list regex) (last : regex) : regex :=
  foldr Alt last l.

End Regex.

(** ** Data model (types/index.ts) *)

Module Bbox.
Record t : Type := mk { x0 : Q; y0 : Q; x1 : Q; y1 : Q }.
End Bbox.

Module OCRWord.
Record t : Type := mk { text : JS.jsstring; confidence : Q; bbox : Bbox.t }.
End OCRWord.

Module OCRResult.
Record t : Type :=
  mk { text : JS.jsstring; confidence : Q; words : list OCRWord.t }.
End OCRResult.

Module TextDensityAnalysis.
Record t : Type := mk {
  totalTextArea : Q;
  imageArea : Q;
  textCoveragePercentage : Q;
  textBlockCount : nat;
  averageWordConfidence : Q;
  wordsDetected : nat
}.
End TextDensityAnalysis.

Module BarcodeQRAnalysis.
Record t : Type := mk { hasBarcode : bool; hasQRCode : bool; confidence : Q }.
End BarcodeQRAnalysis.

Module Metrics.
Record t : Type := mk {
  textCoverage : Q;
  textBlockCount : nat;
  wordCount : nat;
  hasBarcode : bool;
  hasQRCode : bool;
  averageTextConfidence : Q
}.
End Metrics.

Module LabelDetectionResult.
Record t : Type := mk {
  isProductLabel : bool;
  confidence : Q;
  reasoning : JS.jsstring;
  metrics : Metrics.t;
  processingTimeMs : Q
}.
End LabelDetectionResult.

(** Of a [ProductImage] the batch coordinator reads the identifier only;
    the other fields are consumed by the acquisition collaborators. *)
Module ProductImage.
Record t : Type := mk {
  _id : JS.jsstring;
  referencedFileURL : JS.jsstring;
  baseUrl : JS.jsstring;
  isAbsoluteUrl : bool
}.
End ProductImage.

(** ** ImageAnalysisService *)

Module ImageAnalysisService.
Import JS.

(** *** Approximate matcher *)

Abbreviation Matrix := (list (list nat)).

(** [matrix[i][j] = v], skipped when row [i] does not exist. *)
Definition setCell (i j v : nat) (m : Matrix) : Matrix :=
  match m !! i with
  | Some row => <[i := <[j := v]> row]> m
  | None => m
  end.

(** [row[j] ?? 0] *)
Definition getOr0 (row : list nat) (j : nat) : nat := default 0 (row !! j).

Definition fillCell (str1 str2 : jsstring) (i j : nat) (m : Matrix) : Matrix :=
  match m !! i, m !! (i - 1) with
  | Some currentRow, Some prevRow =>
    if decide (charAt str2 (i - 1) = charAt str1 (j - 1)) then
      setCell i j (getOr0 prevRow (j - 1)) m
    else
      let diagCost := getOr0 prevRow (j - 1) in
      let leftCost := getOr0 currentRow (j - 1) in
      let topCost := getOr0 prevRow j in
      setCell i j
        (Nat.min (Nat.min (diagCost + 1) (leftCost + 1)) (topCost + 1)) m
  | _, _ => m
  end.

Definition levenshteinDistance (str1 str2 : jsstring) : nat :=
  let len1 := length str1 in
  let len2 := length str2 in
  let matrix : Matrix := replicate (len2 + 1) (replicate (len1 + 1) 0) in
  let matrix := foldl (fun m i => setCell i 0 i m) matrix (seq 0 (len2 + 1)) in
  let matrix := foldl (fun m j => setCell 0 j j m) matrix (seq 0 (len1 + 1)) in
  let matrix :=
    foldl (fun m i =>
             foldl (fun m' j => fillCell str1 str2 i j m') m (seq 1 len1))
          matrix (seq 1 len2) in
  match matrix !! len2 with
  | Some lastRow => getOr0 lastRow len1
  | None => 0
  end.

Definition ofNat (n : nat) : Q := inject_Z (Z.of_nat n).

Definition similarity (s1 s2 : jsstring) : Q :=
  let longer := if length s2 <? length s1 then s1 else s2 in
  let shorter := if length s2 <? length s1 then s2 else s1 in
  if length longer =? 0 then 1%Q
  else
    let editDistance :=
      levenshteinDistance (toLowerCase longer) (toLowerCase shorter) in
    ((ofNat (length longer) - ofNat editDistance) / ofNat (length longer))%Q.

(** The [for ... of] loop over the words returns at the first word that
    passes; the partial-substring strategy runs when none does. *)
Definition fuzzySearch (text keyword : jsstring) (threshold : Q) : bool :=
  let textLower := toLowerCase text in
  let keywordLower := toLowerCase keyword in
  if includes textLower keywordLower then true
  else
    let words := splitWs textLower in
    if existsb
         (fun word =>
            (Z.of_nat (length keywordLower) - 2 <=? Z.of_nat (length word))%Z
            && Qle_bool threshold (similarity word keywordLower))
         words
    then true
    else
      let keywordParts := splitWs keywordLower in
      let matchedParts :=
        List.filter (fun part => (3 <? length part) && includes textLower part)
                    keywordParts in
      (Qceiling (ofNat (length keywordParts) * (6 # 10)) <=?
         Z.of_nat (length matchedParts))%Z.

(** *** Density analyzer *)

Definition countTextBlocks (points : list (Q * Q)) (imageWidth imageHeight : Q)
  : nat :=
  if length points =? 0 then 0
  else
    let gridSize := 5%Q in
    let cellWidth := (imageWidth / gridSize)%Q in
    let cellHeight := (imageHeight / gridSize)%Q in
    let occupiedCells : gset jsstring :=
      foldl (fun cells point =>
               let cellX := Qfloor (fst point / cellWidth) in
               let cellY := Qfloor (snd point / cellHeight) in
               cells ∪ {[ showZ cellX ++ js "," ++ showZ cellY ]})
            ∅ points in
    size occupiedCells.

Definition analyzeFromWords (ocrResult : OCRResult.t) (imageArea : Q)
  : TextDensityAnalysis.t :=
  let '(totalTextArea, textBlocks) :=
    foldl (fun (st : Q * list (Q * Q)) (word : OCRWord.t) =>
             let '(totalTextArea, textBlocks) := st in
             let b := OCRWord.bbox word in
             let wordWidth := (Bbox.x1 b - Bbox.x0 b)%Q in
             let wordHeight := (Bbox.y1 b - Bbox.y0 b)%Q in
             let wordArea := (wordWidth * wordHeight)%Q in
             let centerX := ((Bbox.x0 b + Bbox.x1 b) / 2)%Q in
             let centerY := ((Bbox.y0 b + Bbox.y1 b) / 2)%Q in
             ((totalTextArea + wordArea)%Q, textBlocks ++ [(centerX, centerY)]))
          (0%Q, []) (OCRResult.words ocrResult) in
  let blockCount := countTextBlocks textBlocks 1000 1000 in
  let textCoveragePercentage := (totalTextArea / imageArea * 100)%Q in
  let averageWordConfidence :=
    if 0 <? length (OCRResult.words ocrResult) then
      (foldl (fun sum word => (sum + OCRWord.confidence word)%Q) 0%Q
             (OCRResult.words ocrResult)
       / ofNat (length (OCRResult.words ocrResult)))%Q
    else 0%Q in
  {| TextDensityAnalysis.totalTextArea := totalTextArea;
     TextDensityAnalysis.imageArea := imageArea;
     TextDensityAnalysis.textCoveragePercentage := textCoveragePercentage;
     TextDensityAnalysis.textBlockCount := blockCount;
     TextDensityAnalysis.averageWordConfidence := averageWordConfidence;
     TextDensityAnalysis.wordsDetected := length (OCRResult.words ocrResult) |}.

Definition nonEmpty (s : jsstring) : bool := 0 <? length s.

Definition analyzeFromPlainText (ocrResult : OCRResult.t)
    (imageArea imageWidth imageHeight : Q) : TextDensityAnalysis.t :=
  let text := trim (OCRResult.text ocrResult) in
  let words := List.filter nonEmpty (splitWs text) in
  let wordsDetected := length words in
  let avgCharWidth := 10%Q in
  let avgCharHeight := 15%Q in
  let estimatedTextArea :=
    (ofNat (length text) * avgCharWidth * avgCharHeight)%Q in
  let textCoveragePercentage :=
    Qmin (estimatedTextArea / imageArea * 100)%Q 100%Q in
  let lines :=
    List.filter (fun line => 0 <? length (trim line)) (splitOn 10%N text) in
  let textBlockCount := Nat.max (length lines / 2) 1 in
  let averageWordConfidence := OCRResult.confidence ocrResult in
  {| TextDensityAnalysis.totalTextArea := estimatedTextArea;
     TextDensityAnalysis.imageArea := imageArea;
     TextDensityAnalysis.textCoveragePercentage := textCoveragePercentage;
     TextDensityAnalysis.textBlockCount := textBlockCount;
     TextDensityAnalysis.averageWordConfidence := averageWordConfidence;
     TextDensityAnalysis.wordsDetected := wordsDetected |}.

Definition analyzeTextDensity (ocrResult : OCRResult.t)
    (imageWidth imageHeight : Q) : TextDensityAnalysis.t :=
  let imageArea := (imageWidth * imageHeight)%Q in
  if 0 <? length (OCRResult.words ocrResult) then
    analyzeFromWords ocrResult imageArea
  else if 0 <? length (trim (OCRResult.text ocrResult)) then
    analyzeFromPlainText ocrResult imageArea imageWidth imageHeight
  else
    {| TextDensityAnalysis.totalTextArea := 0;
       TextDensityAnalysis.imageArea := imageArea;
       TextDensityAnalysis.textCoveragePercentage := 0;
       TextDensityAnalysis.textBlockCount := 0;
       TextDensityAnalysis.averageWordConfidence := 0;
       TextDensityAnalysis.wordsDetected := 0 |}.

(** *** Signal detectors *)

Definition qrPatterns : list jsstring :=
  js <$> ["qr"; "scan"; "escanea"; "código"; "codigo"]%string.
Definition barcodePatterns : list jsstring :=
  js <$> ["barras"; "ean"; "upc"; "código"; "codigo"]%string.

(** [/\d{8,}/g] *)
Definition longNumberRe : Regex.regex :=
  Regex.Seq (Regex.times 8 Regex.digit) (Regex.Star Regex.digit).

Definition detectBarcodeQR (ocrResult : OCRResult.t) : BarcodeQRAnalysis.t :=
  let text := OCRResult.text ocrResult in
  let hasQRKeywords :=
    existsb (fun pattern => fuzzySearch text pattern (7 # 10)) qrPatterns in
  let hasBarcodeKeywords :=
    existsb (fun pattern => fuzzySearch text pattern (7 # 10)) barcodePatterns in
  let longNumberSequences := Regex.matchCount longNumberRe text in
  {| BarcodeQRAnalysis.hasQRCode := hasQRKeywords;
     BarcodeQRAnalysis.hasBarcode :=
       hasBarcodeKeywords || (0 <? longNumberSequences);
     BarcodeQRAnalysis.confidence :=
       if hasQRKeywords || hasBarcodeKeywords then (8 # 10)
       else if 0 <? longNumberSequences then (6 # 10)
       else (3 # 10) |}.

Definition nutritionalKeywords : list jsstring :=
  js <$> ["informacion nutricional"; "información nutricional"; "nutricional";
          "calorias"; "calorías"; "proteina"; "proteína"; "grasa";
          "carbohidrato"; "kcal"; "nutricion"]%string.

(** [/\|\s*\d+/g] *)
Definition tablePatternRe : Regex.regex :=
  Regex.Seq (Regex.unit 124)
    (Regex.Seq (Regex.Star Regex.space) (Regex.plus Regex.digit)).

(** [/\|/g] *)
Definition pipeRe : Regex.regex := Regex.unit 124.

(** [/\d+[\.,]?\d*\s*(g|mg|kcal|cal|gr)\b/gi] *)
Definition nutritionalUnitsRe : Regex.regex :=
  Regex.Seq (Regex.plus Regex.digit)
    (Regex.Seq (Regex.opt (Regex.Chr (fun c => (c =? 46) || (c =? 44))%N))
       (Regex.Seq (Regex.Star Regex.digit)
          (Regex.Seq (Regex.Star Regex.space)
             (Regex.Seq
                (Regex.alts
                   (Regex.litI <$> (js <$> ["g"; "mg"; "kcal"; "cal"]%string))
                   (Regex.litI (js "gr")))
                Regex.WordB)))).

Definition shortNutritionalWords : list jsstring :=
  js <$> ["cal"; "kcal"; "grasa"; "prot"; "carb"; "fibr"]%string.

(** [/por\s+(cada|100|cad)/i] *)
Definition portionRe : Regex.regex :=
  Regex.Seq (Regex.litI (js "por"))
    (Regex.Seq (Regex.plus Regex.space)
       (Regex.alts (Regex.litI <$> (js <$> ["cada"; "100"]%string))
                   (Regex.litI (js "cad")))).

(** [/nutri/i], [/calor/i], [/prote/i], [/carbo/i], [/informa.*nutri/i] *)
Definition partialMatches : list Regex.regex :=
  [ Regex.litI (js "nutri");
    Regex.litI (js "calor");
    Regex.litI (js "prote");
    Regex.litI (js "carbo");
    Regex.Seq (Regex.litI (js "informa"))
      (Regex.Seq (Regex.Star Regex.dot) (Regex.litI (js "nutri"))) ].

Definition hasNutritionalInfo (ocrResult : OCRResult.t) : bool :=
  let text := OCRResult.text ocrResult in
  let textLower := toLowerCase text in
  let matchedKeywords :=
    List.filter (fun keyword => fuzzySearch text keyword (7 # 10))
                nutritionalKeywords in
  let hasTablePattern := Regex.test tablePatternRe text in
  let hasMultiplePipes := 3 <=? Regex.matchCount pipeRe text in
  let nutritionalUnits := Regex.matchCount nutritionalUnitsRe text in
  let hasMultipleUnits := 3 <=? nutritionalUnits in
  let shortMatches :=
    length (List.filter (fun word => includes textLower word)
                        shortNutritionalWords) in
  let hasPortionInfo := Regex.test portionRe text in
  let partialMatchCount :=
    length (List.filter (fun pattern => Regex.test pattern text)
                        partialMatches) in
  (1 <=? length matchedKeywords)
  || (hasTablePattern && hasMultiplePipes)
  || hasMultipleUnits
  || (2 <=? shortMatches)
  || (hasPortionInfo && (2 <=? nutritionalUnits))
  || (2 <=? partialMatchCount).

Definition ingredientKeywords : list jsstring :=
  js <$> ["ingrediente"; "ingredientes"; "contiene"; "leche"; "azucar";
          "azúcar"; "agua"; "natural"; "cultivo"; "probiotico";
          "probiótico"]%string.

Definition hasIngredients (ocrResult : OCRResult.t) : bool :=
  let text := OCRResult.text ocrResult in
  let matchedCount :=
    length (List.filter (fun keyword => fuzzySearch text keyword (75 # 100))
                        ingredientKeywords) in
  2 <=? matchedCount.

Definition storageKeywords : list jsstring :=
  js <$> ["temperatura"; "almacena"; "refrigera"; "conserva"; "grados";
          "°c"; "almacenaje"]%string.

Definition hasStorageInfo (ocrResult : OCRResult.t) : bool :=
  let text := OCRResult.text ocrResult in
  existsb (fun keyword => fuzzySearch text keyword (75 # 100)) storageKeywords.

Definition manufacturerKeywords : list jsstring :=
  js <$> ["producto"; "fabricado"; "elaborado"; "distribuido";
          "comercializado"; "industria"; "empresa"; "hecho en"]%string.

Definition hasManufacturerInfo (ocrResult : OCRResult.t) : bool :=
  let text := OCRResult.text ocrResult in
  existsb (fun keyword => fuzzySearch text keyword (75 # 100))
          manufacturerKeywords.

End ImageAnalysisService.

(** ** LabelDetectionService *)

(** The value [calculateLabelScore] returns. *)
Module LabelScore.
Record t : Type := mk { isLabel : bool; confidence : Q; reasoning : JS.jsstring }.
End LabelScore.

(** How a promise settles; a rejection carries the text its reason renders
    to in a template literal. *)
Inductive Settled (A : Type) : Type :=
| Fulfilled (value : A)
| Rejected (reason : JS.jsstring).
Arguments Fulfilled {A} value.
Arguments Rejected {A} reason.

Module LabelDetectionService.
Import JS.

(** The two locals that every criterion updates. *)
Record Acc : Type := mkAcc { score : Q; reasons : list jsstring }.

(** [score += pts; reasons.push(reason)] *)
Definition award (pts : Q) (reason : jsstring) (a : Acc) : Acc :=
  {| score := (score a + pts)%Q; reasons := reasons a ++ [reason] |}.

(** Criterio 0: cantidad mínima de texto *)
Definition criterio0 (ocrResult : OCRResult.t) (a : Acc) : Acc :=
  let textLength := length (trim (OCRResult.text ocrResult)) in
  if 100 <? textLength then
    award 15
      (js "Cantidad significativa de texto detectado: " ++ showNat textLength
       ++ js " caracteres") a
  else if 50 <? textLength then
    award 8 (js "Texto detectado: " ++ showNat textLength ++ js " caracteres") a
  else a.

(** Criterio 1: cobertura de texto *)
Definition criterio1 (textDensity : TextDensityAnalysis.t) (a : Acc) : Acc :=
  let textCoverageRatio :=
    (TextDensityAnalysis.textCoveragePercentage textDensity / 100)%Q in
  if negb (Qle_bool textCoverageRatio (1 # 10)) then
    let textScore := Qmin 20 (textCoverageRatio / (4 # 10) * 20)%Q in
    award textScore
      (js "Cobertura de texto: "
       ++ toFixed2 (TextDensityAnalysis.textCoveragePercentage textDensity)
       ++ js "%") a
  else a.

(** Criterio 2: cantidad de bloques de texto *)
Definition criterio2 (textDensity : TextDensityAnalysis.t) (a : Acc) : Acc :=
  let n := TextDensityAnalysis.textBlockCount textDensity in
  if 5 <=? n then
    award 15 (js "Múltiples bloques de texto: " ++ showNat n) a
  else if 3 <=? n then
    award 10 (js "Varios bloques de texto: " ++ showNat n) a
  else if 2 <=? n then
    award 5 (js "Algunos bloques de texto: " ++ showNat n) a
  else a.

(** Criterio 3: cantidad de palabras *)
Definition criterio3 (textDensity : TextDensityAnalysis.t) (a : Acc) : Acc :=
  let n := TextDensityAnalysis.wordsDetected textDensity in
  if 30 <=? n then
    award 15 (js "Alto número de palabras: " ++ showNat n) a
  else if 20 <=? n then
    award 12 (js "Número moderado-alto de palabras: " ++ showNat n) a
  else if 10 <=? n then
    award 8 (js "Número moderado de palabras: " ++ showNat n) a
  else if 5 <=? n then
    award 4 (js "Algunas palabras detectadas: " ++ showNat n) a
  else a.

(** Criterio 4: información nutricional *)
Definition criterio4 (hasNutritionalInfo : bool) (a : Acc) : Acc :=
  if hasNutritionalInfo then
    award 20 (js "✓ Contiene información nutricional (indicador muy fuerte)") a
  else a.

(** Criterio 5: ingredientes *)
Definition criterio5 (ocrResult : OCRResult.t) (a : Acc) : Acc :=
  let hasIngredients := ImageAnalysisService.hasIngredients ocrResult in
  if hasIngredients then award 10 (js "✓ Contiene lista de ingredientes") a
  else a.

(** Criterio 6: información de almacenamiento *)
Definition criterio6 (ocrResult : OCRResult.t) (a : Acc) : Acc :=
  let hasStorageInfo := ImageAnalysisService.hasStorageInfo ocrResult in
  if hasStorageInfo then
    award 5 (js "✓ Contiene información de temperatura/almacenamiento") a
  else a.

(** Criterio 7: información del fabricante *)
Definition criterio7 (ocrResult : OCRResult.t) (a : Acc) : Acc :=
  let hasManufacturerInfo :=
    ImageAnalysisService.hasManufacturerInfo ocrResult in
  if hasManufacturerInfo then
    award 5 (js "✓ Contiene información del fabricante/distribuidor") a
  else a.

(** Criterio 8: presencia de códigos QR/barras *)
Definition criterio8 (barcodeQR : BarcodeQRAnalysis.t) (a : Acc) : Acc :=
  if BarcodeQRAnalysis.hasQRCode barcodeQR
     || BarcodeQRAnalysis.hasBarcode barcodeQR then
    let codes :=
      (if BarcodeQRAnalysis.hasQRCode barcodeQR then [js "QR"] else [])
      ++ (if BarcodeQRAnalysis.hasBarcode barcodeQR
          then [js "código de barras"] else []) in
    award 5 (js "✓ Contiene " ++ join (js " y/o ") codes) a
  else a.

(** The accumulator after the nine criteria, in the order of the source. *)
Definition scoreCriteria (textDensity : TextDensityAnalysis.t)
    (barcodeQR : BarcodeQRAnalysis.t) (hasNutritionalInfo : bool)
    (ocrResult : OCRResult.t) : Acc :=
  criterio8 barcodeQR
    (criterio7 ocrResult
      (criterio6 ocrResult
        (criterio5 ocrResult
          (criterio4 hasNutritionalInfo
            (criterio3 textDensity
              (criterio2 textDensity
                (criterio1 textDensity
                  (criterio0 ocrResult
                    {| score := 0; reasons := [] |})))))))).

Definition noCharacteristics : jsstring :=
  js "No se detectaron características de etiqueta".

Definition calculateLabelScore (textDensity : TextDensityAnalysis.t)
    (barcodeQR : BarcodeQRAnalysis.t) (hasNutritionalInfo : bool)
    (ocrResult : OCRResult.t) : LabelScore.t :=
  let maxScore := 100%Q in
  let a := scoreCriteria textDensity barcodeQR hasNutritionalInfo ocrResult in
  let confidence := Qmin (score a / maxScore)%Q 1%Q in
  let isLabel := Qle_bool 45 (score a) in
  let reasoning :=
    if 0 <? length (reasons a) then join (js "; ") (reasons a)
    else noCharacteristics in
  {| LabelScore.isLabel := isLabel;
     LabelScore.confidence := confidence;
     LabelScore.reasoning := reasoning |}.

(** Steps 6 to 9 of [detectLabel], from the OCR result and the image
    dimensions to the decision record. *)
Definition detectLabelCore (ocrResult : OCRResult.t) (width height : Q)
    (processingTime : Q) : LabelDetectionResult.t :=
  let textDensity :=
    ImageAnalysisService.analyzeTextDensity ocrResult width height in
  let barcodeQRAnalysis := ImageAnalysisService.detectBarcodeQR ocrResult in
  let hasNutritionalInfo := ImageAnalysisService.hasNutritionalInfo ocrResult in
  let detectionResult :=
    calculateLabelScore textDensity barcodeQRAnalysis hasNutritionalInfo
                        ocrResult in
  {| LabelDetectionResult.isProductLabel := LabelScore.isLabel detectionResult;
     LabelDetectionResult.confidence := LabelScore.confidence detectionResult;
     LabelDetectionResult.reasoning := LabelScore.reasoning detectionResult;
     LabelDetectionResult.metrics :=
       {| Metrics.textCoverage :=
            TextDensityAnalysis.textCoveragePercentage textDensity;
          Metrics.textBlockCount :=
            TextDensityAnalysis.textBlockCount textDensity;
          Metrics.wordCount := TextDensityAnalysis.wordsDetected textDensity;
          Metrics.hasBarcode := BarcodeQRAnalysis.hasBarcode barcodeQRAnalysis;
          Metrics.hasQRCode := BarcodeQRAnalysis.hasQRCode barcodeQRAnalysis;
          Metrics.averageTextConfidence :=
            TextDensityAnalysis.averageWordConfidence textDensity |};
     LabelDetectionResult.processingTimeMs := processingTime |}.

(** [array.slice(i, j)] for [i <= j] *)
Definition slice {T : Type} (array : list T) (i j : nat) : list T :=
  take (j - i) (drop i array).

(** The loop of [chunkArray]; it runs out of fuel exactly when the source
    loop does not end, which a chunk size of 0 causes. *)
Fixpoint chunkLoop {T : Type} (fuel : nat) (array : list T) (chunkSize i : nat)
    (chunks : list (list T)) : option (list (list T)) :=
  match fuel with
  | O => None
  | S f =>
    if i <? length array then
      chunkLoop f array chunkSize (i + chunkSize)
                (chunks ++ [slice array i (i + chunkSize)])
    else Some chunks
  end.

Definition chunkArray {T : Type} (array : list T) (chunkSize : nat)
  : option (list (list T)) :=
  chunkLoop (S (length array)) array chunkSize 0 [].

(** The record stored for an image whose pipeline rejected. *)
Definition failureResult (reason : jsstring) : LabelDetectionResult.t :=
  {| LabelDetectionResult.isProductLabel := false;
     LabelDetectionResult.confidence := 0;
     LabelDetectionResult.reasoning := js "Error: " ++ reason;
     LabelDetectionResult.metrics :=
       {| Metrics.textCoverage := 0;
          Metrics.textBlockCount := 0;
          Metrics.wordCount := 0;
          Metrics.hasBarcode := false;
          Metrics.hasQRCode := false;
          Metrics.averageTextConfidence := 0 |};
     LabelDetectionResult.processingTimeMs := 0 |}.

Section Pipeline.

(** The collaborators of [detectLabel]: steps 1 to 5 (URL, download,
    dimensions, preprocessing, OCR) either throw or deliver the OCR result
    with the image dimensions; the clock gives the elapsed time. *)
Variable acquire : ProductImage.t -> Settled (OCRResult.t * (Q * Q)).
Variable elapsed : ProductImage.t -> Q.
(** [config.tesseract.workerPoolSize] *)
Variable workerPoolSize : nat.

(** The [catch] block logs and rethrows. *)
Definition detectLabel (image : ProductImage.t)
  : Settled LabelDetectionResult.t :=
  match acquire image with
  | Fulfilled (ocrResult, (width, height)) =>
    Fulfilled (detectLabelCore ocrResult width height (elapsed image))
  | Rejected error => Rejected error
  end.

(** The [forEach] over the settled results of one chunk. *)
Definition storeChunk (chunk : list ProductImage.t)
    (chunkResults : list (Settled LabelDetectionResult.t))
    (results : gmap jsstring LabelDetectionResult.t)
  : gmap jsstring LabelDetectionResult.t :=
  foldl (fun (results : gmap jsstring LabelDetectionResult.t)
             (entry : nat * Settled LabelDetectionResult.t) =>
           let '(index, result) := entry in
           match chunk !! index with
           | None => results
           | Some image =>
             let imageId := ProductImage._id image in
             match result with
             | Fulfilled value => <[imageId := value]> results
             | Rejected reason => <[imageId := failureResult reason]> results
             end
           end)
        results (zip (seq 0 (length chunkResults)) chunkResults).

(** [None] when the call does not return. *)
Definition detectLabelsInBatch (images : list ProductImage.t)
  : option (gmap jsstring LabelDetectionResult.t) :=
  let concurrencyLimit := workerPoolSize in
  match chunkArray images concurrencyLimit with
  | None => None
  | Some chunks =>
    Some (foldl (fun results chunk =>
                   let chunkResults := detectLabel <$> chunk in
                   storeChunk chunk chunkResults results)
                ∅ chunks)
  end.

End Pipeline.

End LabelDetectionService.

(** ** TesseractService: choosing among preprocessing variants *)

Module TesseractService.
Import JS.

Section MultiVariant.

(** An image buffer, and [recognizeText], which runs the OCR engine on
    one buffer and either delivers an OCR result or throws. *)
Variable Buffer : Type.
Variable recognizeText : Buffer -> Settled OCRResult.t.

(** [words.length * (confidence / 100)] *)
Definition variantScore (r : OCRResult.t) : Q :=
  (ImageAnalysisService.ofNat (length (OCRResult.words r))
   * (OCRResult.confidence r / 100))%Q.

(** The callback of [validResults.reduce]. *)
Definition pickBest (best current : OCRResult.t) : OCRResult.t :=
  let bestScore := variantScore best in
  let currentScore := variantScore current in
  if negb (Qle_bool currentScore bestScore) then current else best.

(** [recognizeText(buffer).catch(() => null)] *)
Definition recognizeOrNull (buffer : Buffer) : option OCRResult.t :=
  match recognizeText buffer with
  | Fulfilled r => Some r
  | Rejected _ => None
  end.

Definition recognizeTextMultiVariant (imageBuffers : list Buffer)
  : Settled OCRResult.t :=
  let results := recognizeOrNull <$> imageBuffers in
  let validResults := omap id results in
  match validResults with
  | [] =>
    Rejected (js "Error: No se pudo procesar ninguna variante de la imagen")
  | first :: rest => Fulfilled (foldl pickBest first rest)
  end.

End MultiVariant.

End TesseractService.

(** ** Specification-side definitions

    Definitions that the statements below compare the services with. *)

Module Spec.
Import JS.

(** The points of the word-count criterion, as a function of the count. *)
Definition wordPoints (n : nat) : Q :=
  if 30 <=? n then 15 else if 20 <=? n then 12
  else if 10 <=? n then 8 else if 5 <=? n then 4 else 0.

(** A density with its word count replaced, everything else kept. *)
Definition withWordsDetected (n : nat) (d : TextDensityAnalysis.t)
  : TextDensityAnalysis.t :=
  {| TextDensityAnalysis.totalTextArea := TextDensityAnalysis.totalTextArea d;
     TextDensityAnalysis.imageArea := TextDensityAnalysis.imageArea d;
     TextDensityAnalysis.textCoveragePercentage :=
       TextDensityAnalysis.textCoveragePercentage d;
     TextDensityAnalysis.textBlockCount := TextDensityAnalysis.textBlockCount d;
     TextDensityAnalysis.averageWordConfidence :=
       TextDensityAnalysis.averageWordConfidence d;
     TextDensityAnalysis.wordsDetected := n |}.

(** The accumulator [calculateLabelScore] starts from. *)
Definition acc0 : LabelDetectionService.Acc :=
  LabelDetectionService.mkAcc 0 [].

(** An OCR result without words and without text. *)
Definition emptyOCR (confidence : Q) : OCRResult.t :=
  OCRResult.mk [] confidence [].

(** An OCR result whose text is [n] times the letter a. *)
Definition lettersOCR (n : nat) : OCRResult.t :=
  OCRResult.mk (replicate n 97%N) 90 [].

(** A density with the given coverage percentage and nothing else. *)
Definition coverageOnly (percentage : Q) : TextDensityAnalysis.t :=
  TextDensityAnalysis.mk 0 0 percentage 0 0 0.

(** *** The criteria table of the scoring engine

    One row per line of the table: whether the row fires on the given
    inputs, the points it is worth and the justification it leaves in the
    reasoning trail. *)
Record Row : Type := mkRow { fired : bool; points : Q; justification : jsstring }.

Section Table.
Variable textDensity : TextDensityAnalysis.t.
Variable barcodeQR : BarcodeQRAnalysis.t.
Variable hasNutritionalInfo : bool.
Variable ocrResult : OCRResult.t.

Let textLength := length (trim (OCRResult.text ocrResult)).
Let coverage := TextDensityAnalysis.textCoveragePercentage textDensity.
Let blocks := TextDensityAnalysis.textBlockCount textDensity.
Let words := TextDensityAnalysis.wordsDetected textDensity.
Let qr := BarcodeQRAnalysis.hasQRCode barcodeQR.
Let barcode := BarcodeQRAnalysis.hasBarcode barcodeQR.

Definition rawTextRows : list Row :=
  [ mkRow (100 <? textLength) 15
      (js "Cantidad significativa de texto detectado: " ++ showNat textLength
       ++ js " caracteres");
    mkRow ((50 <? textLength) && (textLength <=? 100)) 8
      (js "Texto detectado: " ++ showNat textLength ++ js " caracteres") ].

Definition coverageRows : list Row :=
  [ mkRow (negb (Qle_bool (coverage / 100) (1 # 10)))
      (Qmin 20 (coverage / 100 / (4 # 10) * 20))
      (js "Cobertura de texto: " ++ toFixed2 coverage ++ js "%") ].

Definition blockRows : list Row :=
  [ mkRow (5 <=? blocks) 15 (js "Múltiples bloques de texto: " ++ showNat blocks);
    mkRow ((3 <=? blocks) && (blocks <=? 4)) 10
      (js "Varios bloques de texto: " ++ showNat blocks);
    mkRow (blocks =? 2) 5 (js "Algunos bloques de texto: " ++ showNat blocks) ].

Definition wordRows : list Row :=
  [ mkRow (30 <=? words) 15 (js "Alto número de palabras: " ++ showNat words);
    mkRow ((20 <=? words) && (words <=? 29)) 12
      (js "Número moderado-alto de palabras: " ++ showNat words);
    mkRow ((10 <=? words) && (words <=? 19)) 8
      (js "Número moderado de palabras: " ++ showNat words);
    mkRow ((5 <=? words) && (words <=? 9)) 4
      (js "Algunas palabras detectadas: " ++ showNat words) ].

Definition signalRows : list Row :=
  [ mkRow hasNutritionalInfo 20
      (js "✓ Contiene información nutricional (indicador muy fuerte)");
    mkRow (ImageAnalysisService.hasIngredients ocrResult) 10
      (js "✓ Contiene lista de ingredientes");
    mkRow (ImageAnalysisService.hasStorageInfo ocrResult) 5
      (js "✓ Contiene información de temperatura/almacenamiento");
    mkRow (ImageAnalysisService.hasManufacturerInfo ocrResult) 5
      (js "✓ Contiene información del fabricante/distribuidor") ].

Definition codeRows : list Row :=
  [ mkRow (qr || barcode) 5
      (js "✓ Contiene "
       ++ (if qr then
             if barcode then js "QR y/o código de barras" else js "QR"
           else js "código de barras")) ].

Definition criteriaTable : list Row :=
  rawTextRows ++ coverageRows ++ blockRows ++ wordRows ++ signalRows
  ++ codeRows.

(** The rows that fire, in table order. *)
Definition firedRows : list Row := List.filter fired criteriaTable.

Definition totalScore : Q := foldl (fun s r => (s + points r)%Q) 0%Q firedRows.

Definition trail : jsstring :=
  match firedRows with
  | [] => js "No se detectaron características de etiqueta"
  | _ => join (js "; ") (justification <$> firedRows)
  end.

End Table.

(** Awarding the rows that fire, one after the other. *)
Definition runRows (rows : list Row) (a : LabelDetectionService.Acc)
  : LabelDetectionService.Acc :=
  foldl (fun a r => LabelDetectionService.award (points r) (justification r) a)
        a (List.filter fired rows).

(** *** Edit distance

    An edit script turns the first string into the second by keeping a
    code unit, substituting one, deleting one or inserting one; its cost
    counts the steps other than keeping. *)
Inductive edits : jsstring -> jsstring -> nat -> Prop :=
| edits_nil : edits [] [] 0
| edits_keep c a b n : edits a b n -> edits (c :: a) (c :: b) n
| edits_subst c c' a b n : edits a b n -> edits (c :: a) (c' :: b) (S n)
| edits_delete c a b n : edits a b n -> edits (c :: a) b (S n)
| edits_insert c a b n : edits a b n -> edits a (c :: b) (S n).

(** [d] is the Levenshtein distance of [a] and [b]: the cost of a
    cheapest edit script. *)
Definition isEditDistance (a b : jsstring) (d : nat) : Prop :=
  edits a b d /\ forall m, edits a b m -> d <= m.

(** The recurrence that the matrix of [levenshteinDistance] follows, read
    on the last code units of two prefixes (here: the heads of the
    reversed prefixes). *)
Fixpoint lev (a b : jsstring) : nat :=
  match a with
  | [] => length b
  | x :: a' =>
    (fix inner (b : jsstring) : nat :=
       match b with
       | [] => length a
       | y :: b' =>
         if decide (x = y) then lev a' b'
         else Nat.min (Nat.min (lev a' b' + 1) (inner b' + 1)) (lev a' b + 1)
       end) b
  end.

(** *** Reading the matrix of [levenshteinDistance] *)

(** [matrix[r][c]], 0 where there is no such cell. *)
Definition cell (m : ImageAnalysisService.Matrix) (r c : nat) : nat :=
  match m !! r with
  | Some row => ImageAnalysisService.getOr0 row c
  | None => 0
  end.

(** The value the cell of row [i] and column [j] is meant to hold: the
    distance between the first [i] code units of [str2] and the first [j]
    of [str1]. *)
Definition prefixDistance (str1 str2 : jsstring) (i j : nat) : nat :=
  lev (rev (take i str2)) (rev (take j str1)).

Definition shape (str1 str2 : jsstring) (m : ImageAnalysisService.Matrix)
  : Prop :=
  length m = length str2 + 1 /\
  forall r row, m !! r = Some row -> length row = length str1 + 1.

(** The rows above [i], the cells of row [i] left of [j], and column 0
    hold their final values. *)
Definition filled (str1 str2 : jsstring) (m : ImageAnalysisService.Matrix)
    (i j : nat) : Prop :=
  shape str1 str2 m /\
  forall r c, r <= length str2 -> c <= length str1 ->
    r < i \/ (r = i /\ c < j) \/ c = 0 ->
    cell m r c = prefixDistance str1 str2 r c.

(** *** Counting pieces while scanning a text *)

Definition nonWs (c : N) : bool := negb (isWhiteSpace c).

Definition one (b : bool) : nat := if b then 1 else 0.

(** Non-empty pieces of [split(/\s+/)] still to come, [open] telling
    whether the piece being read already has a code unit. *)
Fixpoint tokCount (open : bool) (s : jsstring) : nat :=
  match s with
  | [] => one open
  | c :: r => if isWhiteSpace c then one open + tokCount false r
              else tokCount true r
  end.

(** Non-blank lines of [split("\n")] still to come, [seen] telling
    whether the line being read already has a code unit that is not white
    space. *)
Fixpoint lineCount (seen : bool) (s : jsstring) : nat :=
  match s with
  | [] => one seen
  | c :: r => if (c =? 10)%N then one seen + lineCount false r
              else lineCount (seen || nonWs c) r
  end.

(** The key [countTextBlocks] stores for a point. *)
Definition cellKey (cellWidth cellHeight : Q) (point : Q * Q) : jsstring :=
  showZ (Qfloor (fst point / cellWidth)) ++ js ","
  ++ showZ (Qfloor (snd point / cellHeight)).

(** The center of a word's bounding box. *)
Definition center (word : OCRWord.t) : Q * Q :=
  let b := OCRWord.bbox word in
  (((Bbox.x0 b + Bbox.x1 b) / 2)%Q, ((Bbox.y0 b + Bbox.y1 b) / 2)%Q).

(** The area of a word's bounding box. *)
Definition wordArea (word : OCRWord.t) : Q :=
  let b := OCRWord.bbox word in
  ((Bbox.x1 b - Bbox.x0 b) * (Bbox.y1 b - Bbox.y0 b))%Q.

(** A word whose bounding box is the middle of the grid cell in column
    [a] and row [b] of the 200-unit grid. *)
Definition wordInCell (a b : nat) : OCRWord.t :=
  let q := ImageAnalysisService.ofNat in
  OCRWord.mk (js "x") 90
    (Bbox.mk (q (200 * a + 50)) (q (200 * b + 50))
             (q (200 * a + 150)) (q (200 * b + 150))).

(** Twenty-six words spread over a 1200 x 1000 image, six to a row. *)
Definition spreadWords : OCRResult.t :=
  let ws := (fun k => wordInCell (k mod 6) (k / 6)) <$> seq 0 26 in
  OCRResult.mk (join (js " ") (OCRWord.text <$> ws)) 90 ws.

(** One word that covers a 20 x 20 box, to be set in a 10 x 10 image. *)
Definition oversizedWord : OCRResult.t :=
  OCRResult.mk (js "x") 90 [OCRWord.mk (js "x") 90 (Bbox.mk 0 0 20 20)].

(** *** Batch results *)

(** The record the batch stores for a settled pipeline. *)
Definition settledRecord (s : Settled LabelDetectionResult.t)
  : LabelDetectionResult.t :=
  match s with
  | Fulfilled value => value
  | Rejected reason => LabelDetectionService.failureResult reason
  end.

(** Storing the record of every image of a list, in order. *)
Definition storeAll (run : ProductImage.t -> Settled LabelDetectionResult.t)
    (images : list ProductImage.t)
    (results : gmap jsstring LabelDetectionResult.t)
  : gmap jsstring LabelDetectionResult.t :=
  foldl (fun results image =>
           <[ProductImage._id image := settledRecord (run image)]> results)
        results images.

Definition zeroMetrics : Metrics.t := Metrics.mk 0 0 0 false false 0.

(** An image with the given identifier. *)
Definition imageWithId (id : string) : ProductImage.t :=
  ProductImage.mk (js id) (js "middle/label.jpg") (js "https://example.test/")
                  false.

(** Collaborators for the examples: the image called "b" fails in OCR, the
    others deliver an OCR result without text; the clock reports 5 ms. *)
Definition sampleAcquire (image : ProductImage.t)
  : Settled (OCRResult.t * (Q * Q)) :=
  if decide (ProductImage._id image = js "b")
  then Rejected (js "Error: No hay workers disponibles en el pool")
  else Fulfilled (emptyOCR 0, (640%Q, 480%Q)).

Definition sampleElapsed (image : ProductImage.t) : Q := 5.

(** The keys of the twenty-five cells of the 5 x 5 grid. *)
Definition referenceKeys : list jsstring :=
  a ← [0; 1; 2; 3; 4]%Z;
  b ← [0; 1; 2; 3; 4]%Z;
  [showZ a ++ js "," ++ showZ b].

(** The center lies in the 1000 x 1000 reference square. *)
Definition inReferenceSquare (point : Q * Q) : Prop :=
  (0 <= fst point /\ fst point < 1000 /\ 0 <= snd point /\ snd point < 1000)%Q.

(** The cell of the 200-unit grid that holds a point. *)
Definition gridCell (point : Q * Q) : Z * Z :=
  (Qfloor (fst point / 200), Qfloor (snd point / 200)).

(** Reading a decimal rendering back. *)
Definition parseN (ds : jsstring) : N :=
  foldl (fun v c => (10 * v + (c - 48))%N) 0%N ds.

(** *** Sample inputs for the further properties *)

(** A word with the given confidence and bounding box. *)
Definition boxedWord (confidence x0 y0 x1 y1 : Q) : OCRWord.t :=
  OCRWord.mk (js "kcal") confidence (Bbox.mk x0 y0 x1 y1).

(** Two words of a 640 x 480 image. *)
Definition twoWords : OCRResult.t :=
  OCRResult.mk (js "kcal kcal") 80
    [boxedWord 60 10 10 110 40; boxedWord 90 300 200 420 230].

(** The box is not inverted. *)
Definition wellFormed (word : OCRWord.t) : Prop :=
  (Bbox.x0 (OCRWord.bbox word) <= Bbox.x1 (OCRWord.bbox word))%Q /\
  (Bbox.y0 (OCRWord.bbox word) <= Bbox.y1 (OCRWord.bbox word))%Q.

(** *** Points of the criteria as functions of the metrics *)

Definition blockPoints (n : nat) : Q :=
  if 5 <=? n then 15 else if 3 <=? n then 10 else if 2 <=? n then 5 else 0.

Definition coveragePoints (percentage : Q) : Q :=
  if negb (Qle_bool (percentage / 100) (1 # 10))
  then Qmin 20 (percentage / 100 / (4 # 10) * 20)
  else 0.

(** A criterion either leaves the accumulator alone or awards once, at
    most [cap] points. *)
Definition awardsAtMost (cap : Q)
    (criterion : LabelDetectionService.Acc -> LabelDetectionService.Acc)
  : Prop :=
  forall a, criterion a = a \/
            exists pts reason,
              criterion a = LabelDetectionService.award pts reason a /\
              (0 <= pts <= cap)%Q.

(** An OCR result on which every textual signal fires. *)
Definition fullLabelOCR : OCRResult.t :=
  OCRResult.mk
    (js "INFORMACION NUTRICIONAL Calorias 120kcal Proteina 5g Grasa 2g Carbohidratos 20g Ingredientes: leche, azucar, agua. Conservar en refrigeracion. Producto elaborado por Lacteos SA. Codigo 7501234567890")
    90 [].

(** *** Sample OCR variants *)

(** The OCR outcome of three preprocessing variants, told apart by a
    number: the first fails, the other two deliver two words each, with
    engine confidence 80 and 60. *)
Definition sampleRecognize (variant : nat) : Settled OCRResult.t :=
  match variant with
  | 0 => Rejected (js "Error: No hay workers disponibles en el pool")
  | 1 => Fulfilled twoWords
  | _ => Fulfilled (OCRResult.mk (js "kcal kcal") 60 (OCRResult.words twoWords))
  end.

(** *** Blank text *)

(** The predicate tells white space apart from everything it accepts. *)
Definition rejectsWs (p : N -> bool) : Prop :=
  forall c, isWhiteSpace c = true -> p c = false.

(** The input is empty or starts with white space. *)
Definition blankHead (s : jsstring) : Prop :=
  match s with
  | [] => True
  | c :: _ => isWhiteSpace c = true
  end.

(** The class of code units a match of the pattern has to start with,
    when the pattern starts with one. *)
Fixpoint leading (r : Regex.regex) : option (N -> bool) :=
  match r with
  | Regex.Chr p => Some p
  | Regex.Seq a _ => leading a
  | _ => None
  end.

(** An OCR result with no words and the given text. *)
Definition textOnlyOCR (text : string) : OCRResult.t :=
  OCRResult.mk (js text) 0 [].

End Spec.

(** * Properties *)

Import JS.

(** ** Scoring engine: single criteria *)

Section Criteria.
Import LabelDetectionService Spec.

Lemma award_mono pts reason a b :
  (score a <= score b)%Q ->
  (score (award pts reason a) <= score (award pts reason b))%Q.
Proof. intros H. simpl. now apply Qplus_le_l. Qed.

Lemma criterio0_mono ocr a b :
  (score a <= score b)%Q -> (score (criterio0 ocr a) <= score (criterio0 ocr b))%Q.
Proof.
  intros H. unfold criterio0.
  repeat case_match; auto using award_mono.
Qed.

Lemma criterio1_mono d a b :
  (score a <= score b)%Q -> (score (criterio1 d a) <= score (criterio1 d b))%Q.
Proof.
  intros H. unfold criterio1.
  repeat case_match; auto using award_mono.
Qed.

Lemma criterio2_mono d a b :
  (score a <= score b)%Q -> (score (criterio2 d a) <= score (criterio2 d b))%Q.
Proof.
  intros H. unfold criterio2.
  repeat case_match; auto using award_mono.
Qed.

Lemma criterio4_mono n a b :
  (score a <= score b)%Q -> (score (criterio4 n a) <= score (criterio4 n b))%Q.
Proof. intros H. unfold criterio4. case_match; auto using award_mono. Qed.

Lemma criterio5_mono ocr a b :
  (score a <= score b)%Q -> (score (criterio5 ocr a) <= score (criterio5 ocr b))%Q.
Proof. intros H. unfold criterio5. case_match; auto using award_mono. Qed.

Lemma criterio6_mono ocr a b :
  (score a <= score b)%Q -> (score (criterio6 ocr a) <= score (criterio6 ocr b))%Q.
Proof. intros H. unfold criterio6. case_match; auto using award_mono. Qed.

Lemma criterio7_mono ocr a b :
  (score a <= score b)%Q -> (score (criterio7 ocr a) <= score (criterio7 ocr b))%Q.
Proof. intros H. unfold criterio7. case_match; auto using award_mono. Qed.

Lemma criterio8_mono bq a b :
  (score a <= score b)%Q -> (score (criterio8 bq a) <= score (criterio8 bq b))%Q.
Proof. intros H. unfold criterio8. case_match; auto using award_mono. Qed.

Lemma criterio3_score d a :
  (score (criterio3 d a) ==
   score a + wordPoints (TextDensityAnalysis.wordsDetected d))%Q.
Proof.
  unfold criterio3, wordPoints.
  repeat case_match; simpl; try reflexivity. ring.
Qed.

Lemma wordPoints_mono n m : n <= m -> (wordPoints n <= wordPoints m)%Q.
Proof.
  intros H. unfold wordPoints.
  repeat case_match;
    repeat match goal with
           | E : (_ <=? _) = true |- _ => apply Nat.leb_le in E
           | E : (_ <=? _) = false |- _ => apply Nat.leb_gt in E
           end;
    try lia; vm_compute; congruence.
Qed.

End Criteria.

(** ** Scoring engine: the criteria one by one *)

Section CriteriaClaims.
Import LabelDetectionService Spec.

(** C6, as the code has it: the raw-text-volume criterion measures the
    text after trimming; it awards exactly 15 points above 100 code units,
    exactly 8 points from 51 to 100, and nothing (no points, no reason)
    at 50 or below. *)
Theorem text_volume_criterion (ocr : OCRResult.t) (a : Acc) :
  let n := length (trim (OCRResult.text ocr)) in
  (100 < n -> score (criterio0 ocr a) = (score a + 15)%Q) /\
  (50 < n <= 100 -> score (criterio0 ocr a) = (score a + 8)%Q) /\
  (n <= 50 -> criterio0 ocr a = a).
Proof.
  intros n. unfold criterio0. fold n.
  destruct (100 <? n) eqn:E1; [apply Nat.ltb_lt in E1 | apply Nat.ltb_ge in E1].
  - repeat split; intros; try lia; reflexivity.
  - destruct (50 <? n) eqn:E2;
      [apply Nat.ltb_lt in E2 | apply Nat.ltb_ge in E2];
      repeat split; intros; try lia; reflexivity.
Qed.

Lemma text_volume_criterion_witness :
  score (criterio0 (lettersOCR 51) acc0) = (score acc0 + 8)%Q.
Proof.
  apply (text_volume_criterion (lettersOCR 51) acc0).
  vm_compute. lia.
Defined.

(** C6 as stated fails at a text of exactly 50 characters: the criterion
    awards nothing there, not 8 points. *)
Lemma text_volume_50_counterexample :
  length (OCRResult.text (lettersOCR 50)) = 50 /\
  criterio0 (lettersOCR 50) acc0 = acc0 /\
  ~ (score (criterio0 (lettersOCR 50) acc0) == score acc0 + 8)%Q.
Proof.
  split; [reflexivity |]. split; [reflexivity |].
  intros H. vm_compute in H. discriminate H.
Qed.

(** C7: the text-coverage criterion adds min(20, (ratio/0.4)*20) when
    ratio = coverage/100 exceeds 0.1 and leaves the score alone otherwise;
    at ratio 0.4 it adds exactly 20, and at 0.8 still 20. *)
Theorem coverage_criterion (d : TextDensityAnalysis.t) (a : Acc) :
  let ratio := (TextDensityAnalysis.textCoveragePercentage d / 100)%Q in
  ((1 # 10) < ratio ->
     score (criterio1 d a) = (score a + Qmin 20 (ratio / (4 # 10) * 20))%Q)%Q /\
  (ratio <= 1 # 10 -> criterio1 d a = a)%Q /\
  (ratio == 4 # 10 -> score (criterio1 d a) == score a + 20)%Q /\
  (ratio == 8 # 10 -> score (criterio1 d a) == score a + 20)%Q.
Proof.
  intros ratio.
  assert (Hgt : ((1 # 10) < ratio ->
     score (criterio1 d a) = (score a + Qmin 20 (ratio / (4 # 10) * 20))%Q)%Q).
  { intros H. unfold criterio1. fold ratio.
    destruct (Qle_bool ratio (1 # 10)) eqn:E; [| reflexivity].
    apply Qle_bool_iff in E. exfalso. eapply Qlt_not_le; eassumption. }
  repeat split.
  - exact Hgt.
  - intros H. unfold criterio1. fold ratio.
    apply Qle_bool_iff in H. now rewrite H.
  - intros H. rewrite Hgt by (rewrite H; reflexivity).
    apply Qplus_inj_l.
    rewrite Q.min_l; [reflexivity |]. rewrite H. vm_compute. discriminate.
  - intros H. rewrite Hgt by (rewrite H; reflexivity).
    apply Qplus_inj_l.
    rewrite Q.min_l; [reflexivity |]. rewrite H. vm_compute. discriminate.
Qed.

Lemma coverage_criterion_witness :
  (score (criterio1 (coverageOnly 40) acc0) == score acc0 + 20)%Q /\
  (score (criterio1 (coverageOnly 80) acc0) == score acc0 + 20)%Q /\
  criterio1 (coverageOnly 10) acc0 = acc0.
Proof.
  split; [| split].
  - destruct (coverage_criterion (coverageOnly 40) acc0) as (_ & _ & H & _).
    apply H. reflexivity.
  - destruct (coverage_criterion (coverageOnly 80) acc0) as (_ & _ & _ & H).
    apply H. reflexivity.
  - destruct (coverage_criterion (coverageOnly 10) acc0) as (_ & H & _).
    apply H. vm_compute. discriminate.
Defined.

(** C9: with everything else fixed, a larger [wordsDetected] never gives a
    smaller total score. *)
Theorem score_monotone_in_words (d : TextDensityAnalysis.t)
    (bq : BarcodeQRAnalysis.t) (nut : bool) (ocr : OCRResult.t) (n m : nat) :
  n <= m ->
  (score (scoreCriteria (withWordsDetected n d) bq nut ocr) <=
   score (scoreCriteria (withWordsDetected m d) bq nut ocr))%Q.
Proof.
  intros H. unfold scoreCriteria.
  apply criterio8_mono, criterio7_mono, criterio6_mono, criterio5_mono,
    criterio4_mono.
  rewrite !criterio3_score. simpl TextDensityAnalysis.wordsDetected.
  apply Qplus_le_compat; [apply Qle_refl | now apply wordPoints_mono].
Qed.

Lemma score_monotone_in_words_witness :
  (score (scoreCriteria (withWordsDetected 4 (coverageOnly 30))
                        (BarcodeQRAnalysis.mk false false (3 # 10)) false
                        (lettersOCR 60)) <=
   score (scoreCriteria (withWordsDetected 31 (coverageOnly 30))
                        (BarcodeQRAnalysis.mk false false (3 # 10)) false
                        (lettersOCR 60)))%Q.
Proof.
  apply (score_monotone_in_words (coverageOnly 30)
           (BarcodeQRAnalysis.mk false false (3 # 10)) false (lettersOCR 60)
           4 31).
  lia.
Defined.

End CriteriaClaims.

(** ** Scoring engine: the whole table *)

Section ScoringEngine.
Import LabelDetectionService Spec.

Lemma runRows_app rows1 rows2 a :
  runRows (rows1 ++ rows2) a = runRows rows2 (runRows rows1 a).
Proof. unfold runRows. now rewrite List.filter_app, foldl_app. Qed.

Lemma runRows_score rows a :
  score (runRows rows a) =
  foldl (fun s r => (s + points r)%Q) (score a) (List.filter fired rows).
Proof.
  unfold runRows. revert a.
  induction (List.filter fired rows) as [| r l IH]; intros a; simpl; [done |].
  now rewrite IH.
Qed.

Lemma runRows_reasons rows a :
  reasons (runRows rows a) =
  reasons a ++ (justification <$> List.filter fired rows).
Proof.
  unfold runRows. revert a.
  induction (List.filter fired rows) as [| r l IH]; intros a; simpl.
  - now rewrite app_nil_r.
  - rewrite IH. simpl. now rewrite <- app_assoc.
Qed.

Ltac leb_cases :=
  repeat match goal with
         | |- context [?x <? ?y] =>
           let E := fresh "E" in
           destruct (x <? y) eqn:E;
           [apply Nat.ltb_lt in E | apply Nat.ltb_ge in E]
         | |- context [?x <=? ?y] =>
           let E := fresh "E" in
           destruct (x <=? y) eqn:E;
           [apply Nat.leb_le in E | apply Nat.leb_gt in E]
         | |- context [?x =? ?y] =>
           let E := fresh "E" in
           destruct (x =? y) eqn:E;
           [apply Nat.eqb_eq in E | apply Nat.eqb_neq in E]
         end.

Lemma criterio0_rows ocr a : criterio0 ocr a = runRows (rawTextRows ocr) a.
Proof.
  unfold criterio0, runRows, rawTextRows. cbn [List.filter fired].
  leb_cases; cbn [foldl points justification andb];
    first [exfalso; lia | reflexivity].
Qed.

Lemma criterio1_rows d a : criterio1 d a = runRows (coverageRows d) a.
Proof.
  unfold criterio1, runRows, coverageRows. cbn [List.filter fired].
  destruct (Qle_bool _ _); cbn [negb foldl points justification]; reflexivity.
Qed.

Lemma criterio2_rows d a : criterio2 d a = runRows (blockRows d) a.
Proof.
  unfold criterio2, runRows, blockRows. cbn [List.filter fired].
  leb_cases; cbn [foldl points justification andb];
    first [exfalso; lia | reflexivity].
Qed.

Lemma criterio3_rows d a : criterio3 d a = runRows (wordRows d) a.
Proof.
  unfold criterio3, runRows, wordRows. cbn [List.filter fired].
  leb_cases; cbn [foldl points justification andb];
    first [exfalso; lia | reflexivity].
Qed.

Lemma signals_rows nut ocr a :
  criterio7 ocr (criterio6 ocr (criterio5 ocr (criterio4 nut a))) =
  runRows (signalRows nut ocr) a.
Proof.
  unfold criterio7, criterio6, criterio5, criterio4, runRows, signalRows.
  cbn [List.filter fired].
  destruct nut, (ImageAnalysisService.hasIngredients ocr),
    (ImageAnalysisService.hasStorageInfo ocr),
    (ImageAnalysisService.hasManufacturerInfo ocr);
    cbn [foldl points justification]; reflexivity.
Qed.

Lemma criterio8_rows bq a : criterio8 bq a = runRows (codeRows bq) a.
Proof.
  unfold criterio8, runRows, codeRows. cbn [List.filter fired].
  destruct (BarcodeQRAnalysis.hasQRCode bq), (BarcodeQRAnalysis.hasBarcode bq);
    cbn [orb foldl points justification app join]; reflexivity.
Qed.

Lemma scoreCriteria_rows d bq nut ocr :
  scoreCriteria d bq nut ocr = runRows (criteriaTable d bq nut ocr) acc0.
Proof.
  unfold scoreCriteria, criteriaTable. rewrite !runRows_app.
  rewrite <- criterio8_rows, <- signals_rows, <- criterio3_rows,
    <- criterio2_rows, <- criterio1_rows, <- criterio0_rows.
  reflexivity.
Qed.

(** C1: the result of [calculateLabelScore] in terms of the criteria
    table: the confidence is min(totalScore/100, 1), the image is a label
    exactly when totalScore >= 45, and the reasoning is the justifications
    of the rows that fired, in table order, joined with semicolons, or the
    fixed sentence when no row fired; totalScore is the score the engine
    has accumulated. *)
Theorem calculateLabelScore_table (d : TextDensityAnalysis.t)
    (bq : BarcodeQRAnalysis.t) (nut : bool) (ocr : OCRResult.t) :
  let r := calculateLabelScore d bq nut ocr in
  let total := totalScore d bq nut ocr in
  score (scoreCriteria d bq nut ocr) = total /\
  LabelScore.confidence r = Qmin (total / 100) 1 /\
  (LabelScore.isLabel r = true <-> (45 <= total)%Q) /\
  LabelScore.reasoning r = trail d bq nut ocr.
Proof.
  intros r total.
  assert (Hs : score (scoreCriteria d bq nut ocr) = total).
  { rewrite scoreCriteria_rows, runRows_score. reflexivity. }
  assert (Hr : reasons (scoreCriteria d bq nut ocr) =
               justification <$> firedRows d bq nut ocr).
  { rewrite scoreCriteria_rows, runRows_reasons. reflexivity. }
  split; [exact Hs |]. unfold r, calculateLabelScore. simpl.
  rewrite Hs, Hr. split; [reflexivity |]. split; [apply Qle_bool_iff |].
  unfold trail. now destruct (firedRows d bq nut ocr).
Qed.

End ScoringEngine.

(** ** Degenerate input *)

Section EmptyOCR.
Import ImageAnalysisService LabelDetectionService Spec.

(** C5: an OCR result with no words and no text has all-zero density
    metrics, and the scoring engine, fed with that density and with the
    detectors run on the same OCR result, accumulates score 0 and does not
    classify the image as a label. *)
Theorem empty_ocr_scores_zero (ocr : OCRResult.t) (width height elapsed : Q) :
  OCRResult.words ocr = [] ->
  OCRResult.text ocr = [] ->
  let d := analyzeTextDensity ocr width height in
  let bq := detectBarcodeQR ocr in
  let nut := hasNutritionalInfo ocr in
  (TextDensityAnalysis.totalTextArea d = 0%Q /\
   TextDensityAnalysis.textCoveragePercentage d = 0%Q /\
   TextDensityAnalysis.textBlockCount d = 0 /\
   TextDensityAnalysis.averageWordConfidence d = 0%Q /\
   TextDensityAnalysis.wordsDetected d = 0) /\
  score (scoreCriteria d bq nut ocr) = 0%Q /\
  LabelScore.isLabel (calculateLabelScore d bq nut ocr) = false /\
  LabelDetectionResult.isProductLabel
    (detectLabelCore ocr width height elapsed) = false.
Proof.
  destruct ocr as [text confidence words]. simpl. intros -> ->.
  repeat split; reflexivity.
Qed.

Lemma empty_ocr_scores_zero_witness :
  score (scoreCriteria (analyzeTextDensity (emptyOCR 0) 640 480)
                       (detectBarcodeQR (emptyOCR 0))
                       (hasNutritionalInfo (emptyOCR 0)) (emptyOCR 0)) = 0%Q.
Proof.
  apply (empty_ocr_scores_zero (emptyOCR 0) 640 480 0); reflexivity.
Defined.

End EmptyOCR.

(** ** Approximate matcher *)

Section EditScripts.
Import Spec.

Lemma lev_nil_r a : lev a [] = length a.
Proof. now destruct a. Qed.

Lemma lev_cons x a y b :
  lev (x :: a) (y :: b) =
  if decide (x = y) then lev a b
  else Nat.min (Nat.min (lev a b + 1) (lev (x :: a) b + 1)) (lev a (y :: b) + 1).
Proof. reflexivity. Qed.

Lemma edits_sym a b n : edits a b n -> edits b a n.
Proof. induction 1; eauto using edits. Qed.

Lemma edits_app a b n a' b' m :
  edits a b n -> edits a' b' m -> edits (a ++ a') (b ++ b') (n + m).
Proof. intros H H'. induction H; simpl; eauto using edits. Qed.

Lemma edits_rev a b n : edits a b n -> edits (rev a) (rev b) n.
Proof.
  induction 1; simpl.
  - constructor.
  - replace n with (n + 0) by lia. apply edits_app; eauto using edits.
  - replace (S n) with (n + 1) by lia. apply edits_app; eauto using edits.
  - replace (S n) with (n + 1) by lia.
    rewrite <- (app_nil_r (rev b)). apply edits_app; eauto using edits.
  - replace (S n) with (n + 1) by lia.
    rewrite <- (app_nil_r (rev a)). apply edits_app; eauto using edits.
Qed.

(** Dropping the head of the source costs at most one more step. *)
Lemma edits_drop_l x a b m :
  edits (x :: a) b m -> exists m', m' <= S m /\ edits a b m'.
Proof.
  intros H. remember (x :: a) as xa eqn:E. revert x a E.
  induction H; intros x a' E; try discriminate E.
  - injection E as -> ->. exists (S n). eauto using edits.
  - injection E as -> ->. exists (S n). eauto using edits.
  - injection E as -> ->. exists n. eauto using edits.
  - destruct (IHedits _ _ E) as (m' & Hle & Hm').
    exists (S m'). split; [lia |]. eauto using edits.
Qed.

Lemma edits_drop_r y a b m :
  edits a (y :: b) m -> exists m', m' <= S m /\ edits a b m'.
Proof.
  intros H. apply edits_sym, edits_drop_l in H as (m' & Hle & H).
  eauto using edits_sym.
Qed.

Lemma edits_from_nil b : edits [] b (length b).
Proof. induction b; simpl; eauto using edits. Qed.

Lemma edits_to_nil a : edits a [] (length a).
Proof. induction a; simpl; eauto using edits. Qed.

Lemma edits_length_r a b m : edits a b m -> length b <= length a + m.
Proof. induction 1; simpl; lia. Qed.

Lemma edits_length_l a b m : edits a b m -> length a <= length b + m.
Proof. induction 1; simpl; lia. Qed.

(** The recurrence computes the cost of a cheapest script. *)
Lemma lev_isEditDistance a b : isEditDistance a b (lev a b).
Proof.
  remember (length a + length b) as k eqn:Ek.
  revert a b Ek. induction k as [k IH] using lt_wf_ind. intros a b Ek.
  destruct a as [| x a].
  { split; [apply edits_from_nil |].
    intros m H. apply edits_length_r in H. simpl in *. lia. }
  destruct b as [| y b].
  { rewrite lev_nil_r. split; [apply edits_to_nil |].
    intros m H. apply edits_length_l in H. simpl in *. lia. }
  assert (Hd : isEditDistance a b (lev a b)).
  { eapply IH; [| reflexivity]. simpl in *. lia. }
  assert (Hl : isEditDistance (x :: a) b (lev (x :: a) b)).
  { eapply IH; [| reflexivity]. simpl in *. lia. }
  assert (Ht : isEditDistance a (y :: b) (lev a (y :: b))).
  { eapply IH; [| reflexivity]. simpl in *. lia. }
  destruct Hd as [Hd1 Hd2], Hl as [Hl1 Hl2], Ht as [Ht1 Ht2].
  rewrite lev_cons. destruct (decide (x = y)) as [-> | Hne].
  - split; [now constructor |].
    intros m H. inversion H; subst.
    + auto.
    + match goal with H' : edits a b _ |- _ => apply Hd2 in H' end. lia.
    + match goal with H' : edits a (y :: b) _ |- _ =>
        apply edits_drop_r in H' as (m' & Hle & Hm') end.
      apply Hd2 in Hm'. lia.
    + match goal with H' : edits (y :: a) b _ |- _ =>
        apply edits_drop_l in H' as (m' & Hle & Hm') end.
      apply Hd2 in Hm'. lia.
  - split.
    + destruct (Nat.min_spec (Nat.min (lev a b + 1) (lev (x :: a) b + 1))
                             (lev a (y :: b) + 1)) as [[_ ->] | [_ ->]].
      * destruct (Nat.min_spec (lev a b + 1) (lev (x :: a) b + 1))
          as [[_ ->] | [_ ->]]; rewrite Nat.add_1_r; eauto using edits.
      * rewrite Nat.add_1_r; eauto using edits.
    + intros m H. inversion H; subst.
      * congruence.
      * match goal with H' : edits a b _ |- _ => apply Hd2 in H' end. lia.
      * match goal with H' : edits a (y :: b) _ |- _ => apply Ht2 in H' end.
        lia.
      * match goal with H' : edits (x :: a) b _ |- _ => apply Hl2 in H' end.
        lia.
Qed.

Lemma isEditDistance_unique a b d d' :
  isEditDistance a b d -> isEditDistance a b d' -> d = d'.
Proof. intros [H1 H2] [H1' H2']. apply H2 in H1'. apply H2' in H1. lia. Qed.

Lemma isEditDistance_sym a b d : isEditDistance a b d -> isEditDistance b a d.
Proof. intros [H1 H2]. split; eauto using edits_sym. Qed.

Lemma isEditDistance_rev a b d :
  isEditDistance (rev a) (rev b) d -> isEditDistance a b d.
Proof.
  intros [H1 H2]. split.
  - apply edits_rev in H1. now rewrite !rev_involutive in H1.
  - intros m H. apply H2. now apply edits_rev.
Qed.

Lemma edits_refl a : edits a a 0.
Proof. induction a; eauto using edits. Qed.

End EditScripts.

Section LevenshteinMatrix.
Import ImageAnalysisService Spec.

Variables str1 str2 : jsstring.

Lemma foldl_seq_inv {A : Type} (P : nat -> A -> Prop) (f : A -> nat -> A)
    (start n : nat) (a : A) :
  P start a ->
  (forall k x, start <= k < start + n -> P k x -> P (S k) (f x k)) ->
  P (start + n) (foldl f a (seq start n)).
Proof.
  revert start a. induction n as [| n IH]; intros start a H0 Hstep; simpl.
  - now rewrite Nat.add_0_r.
  - rewrite <- Nat.add_succ_comm. apply IH.
    + apply Hstep; [lia | exact H0].
    + intros k x Hk. apply Hstep. lia.
Qed.

Lemma setCell_shape i j v m : shape str1 str2 m -> shape str1 str2 (setCell i j v m).
Proof.
  intros [Hlen Hrows]. unfold setCell.
  destruct (m !! i) as [row |] eqn:Ei; [| now split].
  split; [now rewrite length_insert |].
  intros r row' Hr. destruct (decide (r = i)) as [-> | Hne].
  - rewrite list_lookup_insert_eq in Hr by (eapply lookup_lt_Some; eauto).
    injection Hr as <-. rewrite length_insert. eauto.
  - rewrite list_lookup_insert_ne in Hr by congruence. eauto.
Qed.

Lemma cell_setCell i j v m r c :
  shape str1 str2 m -> i <= length str2 -> j <= length str1 ->
  cell (setCell i j v m) r c =
  if decide (r = i /\ c = j) then v else cell m r c.
Proof.
  intros [Hlen Hrows] Hi Hj. unfold setCell, cell.
  destruct (m !! i) as [row |] eqn:Ei.
  2: { apply lookup_ge_None in Ei. lia. }
  pose proof (Hrows _ _ Ei) as Hrow.
  destruct (decide (r = i)) as [-> | Hne].
  - rewrite list_lookup_insert_eq by (eapply lookup_lt_Some; eauto).
    rewrite Ei. unfold getOr0. destruct (decide (c = j)) as [-> | Hc].
    + rewrite list_lookup_insert_eq by lia. simpl.
      now rewrite decide_True by done.
    + rewrite list_lookup_insert_ne by congruence.
      now rewrite decide_False by (intros [_ ?]; done).
  - rewrite list_lookup_insert_ne by congruence.
    now rewrite decide_False by (intros [? _]; done).
Qed.

Lemma prefixDistance_0_l c : c <= length str1 -> prefixDistance str1 str2 0 c = c.
Proof.
  intros H. unfold prefixDistance. rewrite take_0. simpl.
  rewrite length_rev, length_take. lia.
Qed.

Lemma prefixDistance_0_r r : r <= length str2 -> prefixDistance str1 str2 r 0 = r.
Proof.
  intros H. unfold prefixDistance. rewrite take_0. simpl.
  rewrite lev_nil_r, length_rev, length_take. lia.
Qed.

Lemma rev_take_S (s : jsstring) k x :
  s !! k = Some x -> rev (take (S k) s) = x :: rev (take k s).
Proof.
  intros H. erewrite take_S_r by exact H. now rewrite rev_app_distr.
Qed.

Lemma prefixDistance_step i j x y :
  str2 !! i = Some x -> str1 !! j = Some y ->
  prefixDistance str1 str2 (S i) (S j) =
  if decide (x = y) then prefixDistance str1 str2 i j
  else Nat.min (Nat.min (prefixDistance str1 str2 i j + 1)
                        (prefixDistance str1 str2 (S i) j + 1))
               (prefixDistance str1 str2 i (S j) + 1).
Proof.
  intros Hx Hy. unfold prefixDistance.
  rewrite (rev_take_S str2 i x Hx), (rev_take_S str1 j y Hy).
  apply lev_cons.
Qed.

Lemma initial_shape :
  shape str1 str2 (replicate (length str2 + 1) (replicate (length str1 + 1) 0)).
Proof.
  split; [apply length_replicate |].
  intros r row Hr. apply lookup_replicate in Hr as [-> _].
  apply length_replicate.
Qed.

Lemma first_column m :
  shape str1 str2 m ->
  let m' := foldl (fun m i => setCell i 0 i m) m (seq 0 (length str2 + 1)) in
  shape str1 str2 m' /\ forall r, r <= length str2 -> cell m' r 0 = r.
Proof.
  intros Hs m'.
  assert (H : shape str1 str2 m' /\ forall r, r < 0 + (length str2 + 1) ->
                                              cell m' r 0 = r).
  { apply (foldl_seq_inv
             (fun k m => shape str1 str2 m /\ forall r, r < k -> cell m r 0 = r)).
    - split; [exact Hs | intros; lia].
    - intros k x Hk [Hx Hc]. split; [now apply setCell_shape |].
      intros r Hr. rewrite cell_setCell by (done || lia).
      case_decide; [lia | apply Hc; lia]. }
  destruct H as [H1 H2]. split; [exact H1 | intros; apply H2; lia].
Qed.

Lemma first_row m :
  shape str1 str2 m -> (forall r, r <= length str2 -> cell m r 0 = r) ->
  filled str1 str2
         (foldl (fun m j => setCell 0 j j m) m (seq 0 (length str1 + 1))) 1 0.
Proof.
  intros Hs Hcol.
  set (m' := foldl _ _ _).
  assert (H : shape str1 str2 m' /\
              (forall r, r <= length str2 -> cell m' r 0 = r) /\
              forall c, c < 0 + (length str1 + 1) -> cell m' 0 c = c).
  { apply (foldl_seq_inv
             (fun k m => shape str1 str2 m /\
                         (forall r, r <= length str2 -> cell m r 0 = r) /\
                         forall c, c < k -> cell m 0 c = c)).
    - repeat split; try apply Hs; [exact Hcol | intros; lia].
    - intros k x Hk (Hx & Hc & Hr). split; [now apply setCell_shape |]. split.
      + intros r Hle. rewrite cell_setCell by (done || lia).
        case_decide; [lia | now apply Hc].
      + intros c Hlt. rewrite cell_setCell by (done || lia).
        case_decide; [lia | apply Hr; lia]. }
  destruct H as (H1 & H2 & H3). split; [exact H1 |].
  intros r c Hr Hc [Hlt | [[_ Hlt] | ->]].
  - assert (r = 0) as -> by lia.
    rewrite prefixDistance_0_l by done. apply H3. lia.
  - lia.
  - rewrite prefixDistance_0_r by done. now apply H2.
Qed.

Lemma fillCell_filled m i j :
  1 <= i <= length str2 -> 1 <= j <= length str1 ->
  filled str1 str2 m i j -> filled str1 str2 (fillCell str1 str2 i j m) i (S j).
Proof.
  intros Hi Hj [Hs Hc]. pose proof Hs as [Hlen Hrows].
  destruct (lookup_lt_is_Some_2 m i) as [cur Ecur]; [lia |].
  destruct (lookup_lt_is_Some_2 m (i - 1)) as [prev Eprev]; [lia |].
  destruct (lookup_lt_is_Some_2 str2 (i - 1)) as [x Ex]; [lia |].
  destruct (lookup_lt_is_Some_2 str1 (j - 1)) as [y Ey]; [lia |].
  assert (Hdiag : getOr0 prev (j - 1) = prefixDistance str1 str2 (i - 1) (j - 1)).
  { rewrite <- Hc by lia. unfold cell. now rewrite Eprev. }
  assert (Hleft : getOr0 cur (j - 1) = prefixDistance str1 str2 i (j - 1)).
  { rewrite <- Hc by lia. unfold cell. now rewrite Ecur. }
  assert (Htop : getOr0 prev j = prefixDistance str1 str2 (i - 1) j).
  { rewrite <- Hc by lia. unfold cell. now rewrite Eprev. }
  assert (Hstep := prefixDistance_step (i - 1) (j - 1) x y Ex Ey).
  replace (S (i - 1)) with i in Hstep by lia.
  replace (S (j - 1)) with j in Hstep by lia.
  unfold fillCell, charAt. rewrite Ecur, Eprev, Ex, Ey.
  rewrite Hdiag, Hleft, Htop.
  assert (Hval : forall v, v = prefixDistance str1 str2 i j ->
                 filled str1 str2 (setCell i j v m) i (S j)).
  { intros v ->. split; [now apply setCell_shape |].
    intros r c Hr Hcl Hpos. rewrite cell_setCell by (done || lia).
    destruct (decide (r = i /\ c = j)) as [[-> ->] | Hd]; [reflexivity |].
    apply Hc; [done | done |].
    destruct Hpos as [? | [[-> ?] | ?]]; [lia | | lia].
    right. left. split; [done |].
    destruct (decide (c = j)) as [-> | ?]; [exfalso; apply Hd; done | lia]. }
  destruct (decide (Some x = Some y)) as [E | E].
  - apply Hval. rewrite Hstep. injection E as ->. now rewrite decide_True.
  - apply Hval. rewrite Hstep. rewrite decide_False by congruence. reflexivity.
Qed.

Lemma fill_row m i :
  1 <= i <= length str2 ->
  filled str1 str2 m i 0 ->
  filled str1 str2
    (foldl (fun m' j => fillCell str1 str2 i j m') m (seq 1 (length str1)))
    (S i) 0.
Proof.
  intros Hi H.
  assert (H1 : filled str1 str2 m i 1).
  { destruct H as [Hs Hc]. split; [exact Hs |].
    intros r c Hr Hcl Hpos. apply Hc; [done | done | lia]. }
  pose proof (foldl_seq_inv (fun k m => filled str1 str2 m i k)
                (fun m' j => fillCell str1 str2 i j m') 1 (length str1) m H1)
    as Hloop.
  destruct Hloop as [Hs Hc].
  { intros k x Hk Hx. apply fillCell_filled; [done | lia | done]. }
  split; [exact Hs |].
  intros r c Hr Hcl Hpos. apply Hc; [done | done | lia].
Qed.

Lemma levenshteinDistance_lev :
  levenshteinDistance str1 str2 = lev (rev str2) (rev str1).
Proof.
  unfold levenshteinDistance.
  destruct (first_column _ initial_shape) as [Hs1 Hc1].
  pose proof (first_row _ Hs1 Hc1) as H0.
  set (m0 := foldl (fun m j => setCell 0 j j m) _ _) in *.
  pose proof (foldl_seq_inv (fun k m => filled str1 str2 m k 0)
                (fun m i => foldl (fun m' j => fillCell str1 str2 i j m') m
                                  (seq 1 (length str1)))
                1 (length str2) m0 H0) as Hloop.
  destruct Hloop as [[Hlen Hrows] Hc].
  { intros k x Hk Hx. apply fill_row; [lia | done]. }
  specialize (Hc (length str2) (length str1)).
  unfold cell, prefixDistance in Hc. rewrite !firstn_all in Hc.
  apply Hc; lia.
Qed.

End LevenshteinMatrix.

Section Similarity.
Import ImageAnalysisService Spec.

Lemma levenshteinDistance_isEditDistance (s t : jsstring) :
  isEditDistance s t (levenshteinDistance s t).
Proof.
  rewrite levenshteinDistance_lev.
  apply isEditDistance_sym, isEditDistance_rev, lev_isEditDistance.
Qed.

Lemma ofNat_nonzero n : n <> 0 -> ~ (ofNat n == 0)%Q.
Proof.
  intros Hn H. unfold ofNat, Qeq in H. simpl in H. lia.
Qed.

Lemma ratio_complement (n d : nat) :
  n <> 0 -> ((ofNat n - ofNat d) / ofNat n == 1 - ofNat d / ofNat n)%Q.
Proof. intros Hn. field. now apply ofNat_nonzero. Qed.

(** C8: [similarity a b] is 1 - d / max(len a, len b), where [d] is the
    Levenshtein distance (cheapest script of single insertions, deletions
    and substitutions) between the lower-cased strings; two empty strings
    have similarity 1, and so has every string with itself. *)
Theorem similarity_edit_distance (a b : jsstring) :
  (exists d,
     isEditDistance (toLowerCase a) (toLowerCase b) d /\
     (similarity a b ==
      if Nat.max (length a) (length b) =? 0 then 1
      else 1 - ofNat d / ofNat (Nat.max (length a) (length b)))%Q) /\
  similarity [] [] = 1%Q /\
  (similarity a a == 1)%Q.
Proof.
  split; [| split].
  - unfold similarity.
    destruct (length b <? length a) eqn:E;
      [apply Nat.ltb_lt in E | apply Nat.ltb_ge in E].
    + exists (levenshteinDistance (toLowerCase a) (toLowerCase b)).
      split; [apply levenshteinDistance_isEditDistance |].
      rewrite Nat.max_l by lia.
      destruct (length a =? 0) eqn:E0;
        [apply Nat.eqb_eq in E0; lia | apply Nat.eqb_neq in E0].
      now apply ratio_complement.
    + exists (levenshteinDistance (toLowerCase b) (toLowerCase a)).
      split;
        [apply isEditDistance_sym, levenshteinDistance_isEditDistance |].
      rewrite Nat.max_r by lia.
      destruct (length b =? 0) eqn:E0; [reflexivity |].
      apply Nat.eqb_neq in E0. now apply ratio_complement.
  - reflexivity.
  - unfold similarity. rewrite Nat.ltb_irrefl.
    destruct (length a =? 0) eqn:E0; [reflexivity |].
    apply Nat.eqb_neq in E0.
    assert (Hd : levenshteinDistance (toLowerCase a) (toLowerCase a) = 0).
    { eapply isEditDistance_unique;
        [apply levenshteinDistance_isEditDistance |].
      split; [apply edits_refl | intros; lia]. }
    rewrite Hd. change (ofNat 0) with 0%Q. field. now apply ofNat_nonzero.
Qed.

End Similarity.

(** ** Density analyzer *)

Section Scanning.
Import ImageAnalysisService Spec.

Lemma trimStart_nonempty s : (0 <? length (trimStart s)) = existsb nonWs s.
Proof.
  induction s as [| c r IH]; simpl; [reflexivity |].
  unfold nonWs at 1. destruct (isWhiteSpace c); simpl; [exact IH | reflexivity].
Qed.

Lemma trimStart_existsb s : existsb nonWs (trimStart s) = existsb nonWs s.
Proof.
  induction s as [| c r IH]; simpl; [reflexivity |].
  unfold nonWs at 2. destruct (isWhiteSpace c) eqn:E; simpl; [exact IH |].
  unfold nonWs. now rewrite E.
Qed.

Lemma existsb_rev {A : Type} (f : A -> bool) (l : list A) :
  existsb f (rev l) = existsb f l.
Proof.
  induction l as [| x l IH]; simpl; [reflexivity |].
  rewrite existsb_app, IH. simpl. rewrite orb_false_r. apply orb_comm.
Qed.

Lemma trim_nonempty s : (0 <? length (trim s)) = existsb nonWs s.
Proof.
  unfold trim. rewrite length_rev, trimStart_nonempty, existsb_rev.
  apply trimStart_existsb.
Qed.

Lemma trim_existsb s : existsb nonWs (trim s) = existsb nonWs s.
Proof.
  unfold trim. now rewrite existsb_rev, trimStart_existsb, existsb_rev,
    trimStart_existsb.
Qed.

Lemma splitWsFrom_tokens inRun cur s :
  (inRun = true -> cur = []) ->
  length (List.filter nonEmpty (splitWsFrom inRun cur s)) =
  tokCount (nonEmpty cur) s.
Proof.
  revert inRun cur. induction s as [| c r IH]; intros inRun cur Hrun; simpl.
  - unfold nonEmpty at 1. rewrite length_rev. fold (nonEmpty cur).
    now destruct (nonEmpty cur).
  - destruct (isWhiteSpace c).
    + destruct inRun.
      * rewrite (Hrun eq_refl). now rewrite IH.
      * simpl. unfold nonEmpty at 1. rewrite length_rev. fold (nonEmpty cur).
        destruct (nonEmpty cur); simpl; now rewrite IH.
    + now rewrite IH.
Qed.

Lemma splitOnFrom_lines cur s :
  length (List.filter (fun line => 0 <? length (trim line))
                      (splitOnFrom 10 cur s)) =
  lineCount (existsb nonWs cur) s.
Proof.
  revert cur. induction s as [| c r IH]; intros cur;
    cbn [splitOnFrom lineCount].
  - cbn [List.filter]. rewrite trim_nonempty, existsb_rev.
    now destruct (existsb nonWs cur).
  - destruct (c =? 10)%N eqn:E.
    + cbn [List.filter]. rewrite trim_nonempty, existsb_rev.
      destruct (existsb nonWs cur); cbn [length one]; now rewrite IH.
    + rewrite IH. cbn [existsb]. now rewrite orb_comm.
Qed.

Lemma lineCount_tokCount seen open s :
  (open = true -> seen = true) ->
  lineCount seen s + one open <= tokCount open s + one seen.
Proof.
  revert seen open. induction s as [| c r IH]; intros seen open Hopen; simpl.
  - lia.
  - destruct (c =? 10)%N eqn:E.
    + apply N.eqb_eq in E. subst c. simpl.
      specialize (IH false false (fun H => H)). simpl in IH. lia.
    + unfold nonWs. destruct (isWhiteSpace c); simpl.
      * rewrite orb_false_r.
        specialize (IH seen false (fun H => ltac:(discriminate H))).
        simpl in IH. lia.
      * rewrite orb_true_r. specialize (IH true true (fun H => H)).
        simpl in IH. destruct open, seen; simpl; try lia.
Qed.

Lemma tokCount_pos open s : existsb nonWs s = true -> 1 <= tokCount open s.
Proof.
  revert open. induction s as [| c r IH]; intros open H; simpl in *.
  - discriminate H.
  - unfold nonWs in H at 1. destruct (isWhiteSpace c); simpl in H.
    + specialize (IH false H). lia.
    + clear. revert r. assert (G : forall r, 1 <= tokCount true r);
        [| exact G].
      induction r as [| c' r' IHr]; simpl; [lia |].
      destruct (isWhiteSpace c'); simpl; lia.
Qed.

(** In the plain-text branch there are at least as many words as
    non-blank lines, and at least one word. *)
Lemma plain_text_counts (t : jsstring) :
  existsb nonWs t = true ->
  let wordsDetected := length (List.filter nonEmpty (splitWs t)) in
  let lines :=
    length (List.filter (fun line => 0 <? length (trim line)) (splitOn 10 t)) in
  1 <= wordsDetected /\ lines <= wordsDetected.
Proof.
  intros H. unfold splitWs, splitOn.
  rewrite splitWsFrom_tokens by discriminate. rewrite splitOnFrom_lines.
  change (nonEmpty []) with false. change (existsb nonWs []) with false.
  split; [now apply tokCount_pos |].
  pose proof (lineCount_tokCount false false t (fun H => H)) as G.
  unfold one in G. lia.
Qed.

End Scanning.

Section TextBlocks.
Import ImageAnalysisService Spec.

Lemma words_fold (ws : list OCRWord.t) (t0 : Q) (bs : list (Q * Q)) :
  foldl (fun (st : Q * list (Q * Q)) (word : OCRWord.t) =>
           let '(totalTextArea, textBlocks) := st in
           let b := OCRWord.bbox word in
           let wordWidth := (Bbox.x1 b - Bbox.x0 b)%Q in
           let wordHeight := (Bbox.y1 b - Bbox.y0 b)%Q in
           let wordArea := (wordWidth * wordHeight)%Q in
           let centerX := ((Bbox.x0 b + Bbox.x1 b) / 2)%Q in
           let centerY := ((Bbox.y0 b + Bbox.y1 b) / 2)%Q in
           ((totalTextArea + wordArea)%Q, textBlocks ++ [(centerX, centerY)]))
        (t0, bs) ws =
  (foldl (fun t w => (t + wordArea w)%Q) t0 ws, bs ++ (center <$> ws)).
Proof.
  revert t0 bs. induction ws as [| w ws IH]; intros t0 bs; simpl.
  - now rewrite app_nil_r.
  - rewrite IH. now rewrite <- app_assoc.
Qed.

Lemma occupied_cells (cw ch : Q) (points : list (Q * Q)) (cells : gset jsstring) :
  foldl (fun cells point =>
           let cellX := Qfloor (fst point / cw) in
           let cellY := Qfloor (snd point / ch) in
           cells ∪ {[ showZ cellX ++ js "," ++ showZ cellY ]})
        cells points =
  cells ∪ list_to_set (cellKey cw ch <$> points).
Proof.
  revert cells. induction points as [| p ps IH]; intros cells;
    cbn [foldl fmap list_fmap list_to_set].
  - now rewrite union_empty_r_L.
  - rewrite IH. unfold cellKey. now rewrite union_assoc_L.
Qed.

Lemma countTextBlocks_keys (points : list (Q * Q)) (w h : Q) :
  countTextBlocks points w h =
  size (list_to_set (cellKey (w / 5) (h / 5) <$> points) : gset jsstring).
Proof.
  unfold countTextBlocks. destruct points as [| p ps]; [reflexivity |].
  cbn [length Nat.eqb]. rewrite occupied_cells. now rewrite union_empty_l_L.
Qed.

Lemma size_list_to_set_le (l : list jsstring) :
  size (list_to_set l : gset jsstring) <= length l.
Proof.
  induction l as [| x l IH]; cbn [list_to_set length].
  - now rewrite size_empty.
  - rewrite size_union_alt, size_singleton.
    assert (Hsub : (list_to_set l : gset jsstring) ∖ {[x]} ⊆ list_to_set l).
    { intros y Hy. apply elem_of_difference in Hy. tauto. }
    apply subseteq_size in Hsub. lia.
Qed.

Lemma size_list_to_set_pos (l : list jsstring) :
  l <> [] -> 1 <= size (list_to_set l : gset jsstring).
Proof.
  destruct l as [| x l]; [done |]. intros _.
  assert (size (list_to_set (x :: l) : gset jsstring) <> 0); [| lia].
  apply size_non_empty_iff. set_solver.
Qed.

(** What the word branch returns. *)
Lemma analyzeFromWords_fields (ocr : OCRResult.t) (imageArea : Q) :
  let ws := OCRResult.words ocr in
  let d := analyzeFromWords ocr imageArea in
  TextDensityAnalysis.totalTextArea d = foldl (fun t w => (t + wordArea w)%Q) 0%Q ws /\
  TextDensityAnalysis.textCoveragePercentage d =
    (foldl (fun t w => (t + wordArea w)%Q) 0%Q ws / imageArea * 100)%Q /\
  TextDensityAnalysis.textBlockCount d =
    countTextBlocks (center <$> ws) 1000 1000 /\
  TextDensityAnalysis.wordsDetected d = length ws.
Proof.
  intros ws d. unfold d, analyzeFromWords. fold ws.
  rewrite words_fold. simpl. repeat split; reflexivity.
Qed.

End TextBlocks.

Section DensityClaims.
Import ImageAnalysisService Spec.

(** C10: the analyzer never reports more text blocks than words, and it
    reports no block exactly when it reports no word. *)
Theorem block_count_le_words (ocr : OCRResult.t) (width height : Q) :
  let d := analyzeTextDensity ocr width height in
  TextDensityAnalysis.textBlockCount d <= TextDensityAnalysis.wordsDetected d /\
  (TextDensityAnalysis.textBlockCount d = 0 <->
   TextDensityAnalysis.wordsDetected d = 0).
Proof.
  intros d. unfold d, analyzeTextDensity.
  destruct (0 <? length (OCRResult.words ocr)) eqn:Ew.
  - apply Nat.ltb_lt in Ew.
    destruct (analyzeFromWords_fields ocr (width * height)%Q)
      as (_ & _ & -> & ->).
    rewrite countTextBlocks_keys.
    pose proof (size_list_to_set_le
                  (cellKey (1000 / 5) (1000 / 5) <$> (center <$> OCRResult.words ocr)))
      as Hle.
    rewrite !length_fmap in Hle.
    pose proof (size_list_to_set_pos
                  (cellKey (1000 / 5) (1000 / 5) <$> (center <$> OCRResult.words ocr)))
      as Hpos.
    destruct (OCRResult.words ocr) as [| w ws]; [simpl in Ew; lia |].
    specialize (Hpos ltac:(discriminate)). lia.
  - destruct (0 <? length (trim (OCRResult.text ocr))) eqn:Et.
    + rewrite trim_nonempty, <- trim_existsb in Et.
      destruct (plain_text_counts _ Et) as [H1 H2].
      unfold analyzeFromPlainText. cbn [TextDensityAnalysis.textBlockCount
                                         TextDensityAnalysis.wordsDetected].
      assert (Hdiv : forall n, n / 2 <= n).
      { intros n. apply Nat.Div0.div_le_upper_bound. lia. }
      specialize (Hdiv (length (List.filter
                                  (fun line => 0 <? length (trim line))
                                  (splitOn 10 (trim (OCRResult.text ocr)))))).
      lia.
    + simpl. split; [lia | tauto].
Qed.

Lemma parseN_snoc ds d : parseN (ds ++ [d]) = (10 * parseN ds + (d - 48))%N.
Proof. unfold parseN. now rewrite foldl_app. Qed.

Lemma digitsFuel_S (f : nat) (n : N) (acc : jsstring) :
  digitsFuel (S f) n acc =
  if (n <? 10)%N then (48 + n mod 10)%N :: acc
  else digitsFuel f (n / 10)%N ((48 + n mod 10)%N :: acc).
Proof. reflexivity. Qed.

Lemma digitsFuel_spec (f : nat) (n : N) (acc : jsstring) :
  (n < 2 ^ N.of_nat (S f))%N ->
  exists ds, digitsFuel (S f) n acc = ds ++ acc /\
             Forall (fun c => isDigit c = true) ds /\ ds <> [] /\
             parseN ds = n.
Proof.
  revert n acc. induction f as [| f IH]; intros n acc Hn.
  - assert (n < 10)%N as Hlt by (simpl in Hn; lia).
    exists [(48 + n mod 10)%N]. rewrite digitsFuel_S.
    apply N.ltb_lt in Hlt as Hb. rewrite Hb. apply N.ltb_lt in Hb.
    rewrite N.mod_small by exact Hlt. repeat split.
    + constructor; [| constructor]. unfold isDigit.
      apply andb_true_iff. split; apply N.leb_le; lia.
    + discriminate.
    + unfold parseN. simpl. lia.
  - rewrite digitsFuel_S. destruct (n <? 10)%N eqn:Hb.
    + apply N.ltb_lt in Hb. exists [(48 + n mod 10)%N].
      rewrite N.mod_small by exact Hb. repeat split.
      * constructor; [| constructor]. unfold isDigit.
        apply andb_true_iff. split; apply N.leb_le; lia.
      * discriminate.
      * unfold parseN. simpl. lia.
    + apply N.ltb_ge in Hb.
      destruct (IH (n / 10)%N ((48 + n mod 10)%N :: acc))
        as (ds & Hds & Hdig & Hne & Hparse).
      { apply N.Div0.div_lt_upper_bound.
        assert (Hp : (2 ^ N.of_nat (S (S f)) = 2 * 2 ^ N.of_nat (S f))%N).
        { rewrite <- N.pow_succ_r'. f_equal; lia. }
        rewrite Hp in Hn. clear Hp IH.
        set (p := (2 ^ N.of_nat (S f))%N) in *. clearbody p. lia. }
      exists (ds ++ [(48 + n mod 10)%N]). repeat split.
      * rewrite Hds. now rewrite <- app_assoc.
      * apply Forall_app. split; [exact Hdig |].
        constructor; [| constructor]. unfold isDigit.
        pose proof (N.mod_upper_bound n 10 ltac:(lia)) as Hmod.
        apply andb_true_iff. clear - Hmod.
        set (r := (n mod 10)%N) in *. clearbody r.
        split; apply N.leb_le; lia.
      * now destruct ds.
      * rewrite parseN_snoc, Hparse.
        pose proof (N.Div0.div_mod n 10) as Hdm. clear - Hdm.
        set (q := (n / 10)%N) in *. set (r := (n mod 10)%N) in *.
        clearbody q r. lia.
Qed.

Lemma showN_spec (n : N) :
  Forall (fun c => isDigit c = true) (showN n) /\ showN n <> [] /\
  parseN (showN n) = n.
Proof.
  unfold showN.
  destruct (digitsFuel_spec (N.to_nat (N.log2 n)) n [])
    as (ds & Hds & Hdig & Hne & Hparse).
  - destruct (N.eq_dec n 0%N) as [-> | Hpos]; [reflexivity |].
    pose proof (N.log2_spec n ltac:(lia)) as [_ Hlog].
    replace (N.of_nat (S (N.to_nat (N.log2 n)))) with (N.succ (N.log2 n))
      by lia.
    exact Hlog.
  - rewrite Hds, app_nil_r. auto.
Qed.

Lemma showZ_inj (a b : Z) : showZ a = showZ b -> a = b.
Proof.
  unfold showZ. intros H.
  destruct (showN_spec (Z.to_N a)) as (Da & Na & Pa).
  destruct (showN_spec (Z.to_N b)) as (Db & Nb & Pb).
  destruct (showN_spec (Z.to_N (- a))) as (_ & _ & Pa').
  destruct (showN_spec (Z.to_N (- b))) as (_ & _ & Pb').
  destruct (a <? 0)%Z eqn:Ea, (b <? 0)%Z eqn:Eb;
    [apply Z.ltb_lt in Ea, Eb | apply Z.ltb_lt in Ea; apply Z.ltb_ge in Eb
     | apply Z.ltb_ge in Ea; apply Z.ltb_lt in Eb
     | apply Z.ltb_ge in Ea, Eb].
  - injection H as H. rewrite <- Pa', <- Pb' in *.
    assert (Z.to_N (- a) = Z.to_N (- b)) by congruence. lia.
  - exfalso. destruct (showN (Z.to_N b)) as [| c r]; [done |].
    injection H as <- _. inversion Db as [| ? ? Hc _]. discriminate Hc.
  - exfalso. destruct (showN (Z.to_N a)) as [| c r]; [done |].
    injection H as -> _. inversion Da as [| ? ? Hc _]. discriminate Hc.
  - assert (Z.to_N a = Z.to_N b) by congruence. lia.
Qed.

Lemma showZ_no_comma (z : Z) : Forall (fun c => c <> 44%N) (showZ z).
Proof.
  assert (Hdig : forall n, Forall (fun c => c <> 44%N) (showN n)).
  { intros n. destruct (showN_spec n) as (Hd & _ & _).
    eapply Forall_impl; [exact Hd |]. intros c Hc ->. discriminate Hc. }
  unfold showZ. destruct (z <? 0)%Z; [| apply Hdig].
  constructor; [discriminate | apply Hdig].
Qed.

Lemma split_at_separator (c : N) (s s' t t' : jsstring) :
  Forall (fun x => x <> c) s -> Forall (fun x => x <> c) s' ->
  s ++ c :: t = s' ++ c :: t' -> s = s' /\ t = t'.
Proof.
  intros Hs. revert s'. induction Hs as [| x s Hx Hs IH]; intros s' Hs' H.
  - destruct Hs' as [| y s' Hy Hs']; simpl in H.
    + injection H as ->. done.
    + injection H as <- _. done.
  - destruct Hs' as [| y s' Hy Hs']; simpl in H.
    + injection H as -> _. done.
    + injection H as -> H. destruct (IH _ Hs' H) as [-> ->]. done.
Qed.

Lemma cellKey_gridCell (p : Q * Q) :
  cellKey (1000 / 5) (1000 / 5) p =
  showZ (fst (gridCell p)) ++ js "," ++ showZ (snd (gridCell p)).
Proof.
  unfold cellKey, gridCell. cbn [fst snd].
  assert (Hq : forall x : Q, (x / (1000 / 5) == x / 200)%Q)
    by (intros x; field).
  now rewrite !Hq.
Qed.

Lemma cellKey_inj (p p' : Q * Q) :
  cellKey (1000 / 5) (1000 / 5) p = cellKey (1000 / 5) (1000 / 5) p' ->
  gridCell p = gridCell p'.
Proof.
  rewrite !cellKey_gridCell. intros H.
  apply split_at_separator in H as [Ha Hb]; try apply showZ_no_comma.
  apply showZ_inj in Ha, Hb.
  destruct (gridCell p), (gridCell p'). simpl in *. congruence.
Qed.

(** The block count of the word branch is the number of distinct cells of
    the (unbounded) grid of 200 x 200 cells that hold a center. *)
Lemma countTextBlocks_distinct_cells (points : list (Q * Q)) :
  countTextBlocks points 1000 1000 = length (remove_dups (gridCell <$> points)).
Proof.
  rewrite countTextBlocks_keys.
  induction points as [| p ps IH]; [reflexivity |].
  cbn [fmap list_fmap list_to_set remove_dups].
  destruct (decide_rel elem_of (gridCell p) (gridCell <$> ps)) as [Hin | Hout].
  - rewrite <- IH. f_equal.
    apply list_elem_of_fmap in Hin as (q & Hq & Hqin).
    assert (Hkey : cellKey (1000 / 5) (1000 / 5) p
                   ∈ (list_to_set (cellKey (1000 / 5) (1000 / 5) <$> ps)
                      : gset jsstring)).
    { apply elem_of_list_to_set, list_elem_of_fmap. exists q. split; [| done].
      now rewrite !cellKey_gridCell, Hq. }
    apply subseteq_union_1_L, singleton_subseteq_l. exact Hkey.
  - cbn [length]. rewrite <- IH.
    rewrite size_union, size_singleton; [lia |].
    apply disjoint_singleton_l. intros Hkey.
    apply elem_of_list_to_set, list_elem_of_fmap in Hkey as (q & Hq & Hqin).
    apply Hout, list_elem_of_fmap. exists q. split; [| done].
    now apply cellKey_inj.
Qed.

Lemma floor_in_grid (x : Q) :
  (0 <= x)%Q -> (x < 1000)%Q -> (0 <= Qfloor (x / (1000 / 5)) < 5)%Z.
Proof.
  intros H0 H1.
  assert (Hx : (x / (1000 / 5) == x * (1 # 200))%Q) by (field; discriminate).
  rewrite Hx. split.
  - apply (Qfloor_resp_le 0). apply Qmult_le_0_compat; [exact H0 | discriminate].
  - rewrite Zlt_Qlt. eapply Qle_lt_trans; [apply Qfloor_le |].
    apply Qlt_le_trans with (1000 * (1 # 200))%Q.
    + apply Qmult_lt_r; [reflexivity | exact H1].
    + vm_compute. discriminate.
Qed.

Lemma key_in_reference (p : Q * Q) :
  inReferenceSquare p -> cellKey (1000 / 5) (1000 / 5) p ∈ referenceKeys.
Proof.
  intros (Hx0 & Hx1 & Hy0 & Hy1). unfold cellKey.
  pose proof (floor_in_grid _ Hx0 Hx1) as Ha.
  pose proof (floor_in_grid _ Hy0 Hy1) as Hb.
  set (a := Qfloor (fst p / (1000 / 5))) in *.
  set (b := Qfloor (snd p / (1000 / 5))) in *.
  apply list_elem_of_In.
  assert (Ea : (a = 0 \/ a = 1 \/ a = 2 \/ a = 3 \/ a = 4)%Z) by lia.
  assert (Eb : (b = 0 \/ b = 1 \/ b = 2 \/ b = 3 \/ b = 4)%Z) by lia.
  clearbody a b.
  destruct Ea as [-> | [-> | [-> | [-> | ->]]]];
    destruct Eb as [-> | [-> | [-> | [-> | ->]]]];
    vm_compute; repeat first [left; reflexivity | right].
Qed.

(** When every word center lies in the 1000 x 1000 reference square the
    occupied cells are cells of the 5 x 5 grid, at most 25 of them. *)
Lemma text_blocks_within_reference (ocr : OCRResult.t) (width height : Q) :
  Forall (fun word => inReferenceSquare (center word)) (OCRResult.words ocr) ->
  OCRResult.words ocr <> [] ->
  TextDensityAnalysis.textBlockCount (analyzeTextDensity ocr width height) <= 25.
Proof.
  intros Hin Hne. unfold analyzeTextDensity.
  destruct (OCRResult.words ocr) as [| w ws] eqn:E; [done |].
  change (0 <? length (w :: ws)) with true. cbv iota.
  destruct (analyzeFromWords_fields ocr (width * height)%Q)
    as (_ & _ & -> & _).
  rewrite countTextBlocks_keys, E.
  change 25 with (size (list_to_set referenceKeys : gset jsstring)).
  apply subseteq_size. intros k Hk.
  apply elem_of_list_to_set in Hk. apply elem_of_list_to_set.
  apply list_elem_of_fmap in Hk as (p & -> & Hp).
  apply list_elem_of_fmap in Hp as (word & -> & Hword).
  apply key_in_reference.
  rewrite Forall_forall in Hin. now apply Hin.
Qed.

(** C4 at a concrete input: twenty-six words of a 1200 x 1000 image whose
    centers fall in twenty-six different 200 x 200 cells give a block
    count of 26, above the 25 cells of a 5 x 5 grid. *)
Theorem text_blocks_exceed_grid :
  length (OCRResult.words spreadWords) = 26 /\
  TextDensityAnalysis.textBlockCount
    (analyzeTextDensity spreadWords 1200 1000) = 26.
Proof. split; vm_compute; reflexivity. Qed.

(** C3, as the code has it.  In the plain-text branch the estimated text
    area is charCount * 10 * 15 and is returned as it is, the coverage
    percentage is that area over the image area times 100, capped at 100,
    the block count is max(floor(nonBlankLines / 2), 1) and the average
    word confidence is the engine-level confidence.  In the word branch
    the coverage is the summed box area over the image area times 100,
    with no cap, and it can exceed 100. *)
Theorem coverage_cap_by_branch (ocr : OCRResult.t) (width height : Q) :
  let d := analyzeTextDensity ocr width height in
  let t := trim (OCRResult.text ocr) in
  (OCRResult.words ocr = [] -> 0 < length t ->
     TextDensityAnalysis.totalTextArea d = (ofNat (length t) * 10 * 15)%Q /\
     TextDensityAnalysis.textCoveragePercentage d =
       Qmin (ofNat (length t) * 10 * 15 / (width * height) * 100) 100 /\
     (TextDensityAnalysis.textCoveragePercentage d <= 100)%Q /\
     TextDensityAnalysis.textBlockCount d =
       Nat.max (length (List.filter (fun line => 0 <? length (trim line))
                                    (splitOn 10 t)) / 2) 1 /\
     TextDensityAnalysis.averageWordConfidence d = OCRResult.confidence ocr) /\
  (OCRResult.words ocr <> [] ->
     TextDensityAnalysis.textCoveragePercentage d =
       (foldl (fun s w => (s + wordArea w)%Q) 0%Q (OCRResult.words ocr)
        / (width * height) * 100)%Q) /\
  (100 < TextDensityAnalysis.textCoveragePercentage
           (analyzeTextDensity oversizedWord 10 10))%Q.
Proof.
  intros d t. split; [| split].
  - intros Hw Ht. unfold d, analyzeTextDensity. rewrite Hw.
    change (0 <? @length OCRWord.t []) with false. cbv iota. fold t.
    apply Nat.ltb_lt in Ht. rewrite Ht.
    unfold analyzeFromPlainText. fold t.
    cbn [TextDensityAnalysis.totalTextArea
           TextDensityAnalysis.textCoveragePercentage
           TextDensityAnalysis.textBlockCount
           TextDensityAnalysis.averageWordConfidence].
    repeat split; try reflexivity. apply Q.le_min_r.
  - intros Hw. unfold d, analyzeTextDensity.
    destruct (OCRResult.words ocr) as [| w ws] eqn:E; [done |].
    change (0 <? length (w :: ws)) with true. cbv iota.
    destruct (analyzeFromWords_fields ocr (width * height)%Q)
      as (_ & H & _). rewrite H, E. reflexivity.
  - vm_compute. reflexivity.
Qed.

Lemma coverage_cap_by_branch_witness :
  (TextDensityAnalysis.textCoveragePercentage
     (analyzeTextDensity (lettersOCR 10) 10 10) <= 100)%Q /\
  TextDensityAnalysis.textCoveragePercentage
    (analyzeTextDensity oversizedWord 10 10) =
  (foldl (fun s w => (s + wordArea w)%Q) 0%Q (OCRResult.words oversizedWord)
   / (10 * 10) * 100)%Q.
Proof.
  destruct (coverage_cap_by_branch (lettersOCR 10) 10 10) as (H1 & _ & _).
  destruct (coverage_cap_by_branch oversizedWord 10 10) as (_ & H2 & _).
  split.
  - apply H1; [reflexivity | vm_compute; lia].
  - apply H2. discriminate.
Defined.

(** C3 as stated fails on the estimated text area: in the plain-text
    branch ten characters on a 10 x 10 image give an area of 1500, not
    capped at the image area of 100; only the percentage is capped. *)
Lemma plain_text_area_counterexample :
  let d := analyzeTextDensity (lettersOCR 10) 10 10 in
  OCRResult.words (lettersOCR 10) = [] /\
  (TextDensityAnalysis.totalTextArea d == 1500)%Q /\
  (TextDensityAnalysis.imageArea d == 100)%Q /\
  ~ (TextDensityAnalysis.totalTextArea d <= TextDensityAnalysis.imageArea d)%Q /\
  (TextDensityAnalysis.textCoveragePercentage d == 100)%Q.
Proof.
  repeat split; try reflexivity.
  intros H. vm_compute in H. apply H. reflexivity.
Qed.

End DensityClaims.

(** ** Batch coordinator *)

Section Batch.
Import LabelDetectionService Spec.

Lemma chunkLoop_spec {T : Type} (fuel : nat) (array : list T)
    (chunkSize i : nat) (chunks : list (list T)) :
  0 < chunkSize -> length array - i < fuel ->
  exists rest,
    chunkLoop fuel array chunkSize i chunks = Some (chunks ++ rest) /\
    concat rest = drop i array.
Proof.
  intros Hsize. revert i chunks.
  induction fuel as [| fuel IH]; intros i chunks Hfuel; [lia |].
  simpl. destruct (i <? length array) eqn:E.
  - apply Nat.ltb_lt in E.
    destruct (IH (i + chunkSize) (chunks ++ [slice array i (i + chunkSize)]))
      as (rest & Hrest & Hcat); [lia |].
    exists (slice array i (i + chunkSize) :: rest). split.
    + rewrite Hrest. now rewrite <- app_assoc.
    + simpl. rewrite Hcat. unfold slice.
      replace (i + chunkSize - i) with chunkSize by lia.
      rewrite <- drop_drop. apply take_drop.
  - apply Nat.ltb_ge in E. exists []. split; [now rewrite app_nil_r |].
    simpl. symmetry. now apply drop_ge.
Qed.

Lemma chunkArray_spec {T : Type} (array : list T) (chunkSize : nat) :
  0 < chunkSize ->
  exists chunks, chunkArray array chunkSize = Some chunks /\
                 concat chunks = array.
Proof.
  intros Hsize. unfold chunkArray.
  destruct (chunkLoop_spec (S (length array)) array chunkSize 0 [] Hsize)
    as (rest & H1 & H2); [lia |].
  exists rest. split; [exact H1 | exact H2].
Qed.

Section WithPipeline.
Variable acquire : ProductImage.t -> Settled (OCRResult.t * (Q * Q)).
Variable elapsed : ProductImage.t -> Q.

Local Abbreviation run := (detectLabel acquire elapsed).

Lemma storeChunk_from (pre suf : list ProductImage.t)
    (results : gmap jsstring LabelDetectionResult.t) :
  foldl (fun (results : gmap jsstring LabelDetectionResult.t)
             (entry : nat * Settled LabelDetectionResult.t) =>
           let '(index, result) := entry in
           match (pre ++ suf) !! index with
           | None => results
           | Some image =>
             let imageId := ProductImage._id image in
             match result with
             | Fulfilled value => <[imageId := value]> results
             | Rejected reason => <[imageId := failureResult reason]> results
             end
           end)
        results (zip (seq (length pre) (length suf)) (run <$> suf)) =
  storeAll run suf results.
Proof.
  revert pre results. induction suf as [| x suf IH]; intros pre results.
  - reflexivity.
  - cbn [length seq fmap list_fmap zip zip_with foldl storeAll].
    rewrite lookup_app_r by lia. rewrite Nat.sub_diag. cbn [lookup list_lookup].
    specialize (IH (pre ++ [x])). rewrite <- app_assoc in IH.
    rewrite length_app in IH. cbn [length app] in IH.
    rewrite Nat.add_1_r in IH. unfold storeAll in IH.
    destruct (run x); cbn [settledRecord]; apply IH.
Qed.

Lemma storeChunk_storeAll (chunk : list ProductImage.t)
    (results : gmap jsstring LabelDetectionResult.t) :
  storeChunk chunk (run <$> chunk) results = storeAll run chunk results.
Proof.
  unfold storeChunk. rewrite length_fmap. apply (storeChunk_from [] chunk).
Qed.

Lemma storeAll_app (xs ys : list ProductImage.t)
    (results : gmap jsstring LabelDetectionResult.t) :
  storeAll run (xs ++ ys) results = storeAll run ys (storeAll run xs results).
Proof. unfold storeAll. apply foldl_app. Qed.

Lemma store_chunks (chunks : list (list ProductImage.t))
    (results : gmap jsstring LabelDetectionResult.t) :
  foldl (fun results chunk => storeChunk chunk (run <$> chunk) results)
        results chunks =
  storeAll run (concat chunks) results.
Proof.
  revert results. induction chunks as [| c cs IH]; intros results; simpl.
  - reflexivity.
  - rewrite IH, storeChunk_storeAll. now rewrite storeAll_app.
Qed.

Lemma storeAll_cons (x : ProductImage.t) (xs : list ProductImage.t)
    (results : gmap jsstring LabelDetectionResult.t) :
  storeAll run (x :: xs) results =
  storeAll run xs (<[ProductImage._id x := settledRecord (run x)]> results).
Proof. reflexivity. Qed.

Lemma storeAll_lookup_other (images : list ProductImage.t)
    (results : gmap jsstring LabelDetectionResult.t) (id : jsstring) :
  id ∉ (ProductImage._id <$> images) ->
  storeAll run images results !! id = results !! id.
Proof.
  revert results. induction images as [| x xs IH]; intros results Hid.
  - reflexivity.
  - cbn [fmap list_fmap] in Hid. apply not_elem_of_cons in Hid as [Hne Hid].
    rewrite storeAll_cons.
    rewrite IH by exact Hid. now rewrite lookup_insert_ne.
Qed.

Lemma storeAll_lookup (images : list ProductImage.t)
    (results : gmap jsstring LabelDetectionResult.t) (image : ProductImage.t) :
  NoDup (ProductImage._id <$> images) -> image ∈ images ->
  storeAll run images results !! ProductImage._id image =
  Some (settledRecord (run image)).
Proof.
  revert results. induction images as [| x xs IH]; intros results Hnd Hin.
  - now apply elem_of_nil in Hin.
  - cbn [fmap list_fmap] in Hnd. apply NoDup_cons in Hnd as [Hx Hnd].
    rewrite storeAll_cons.
    apply elem_of_cons in Hin as [-> | Hin].
    + rewrite storeAll_lookup_other by exact Hx. apply lookup_insert_eq.
    + now apply IH.
Qed.

Lemma storeAll_size (images : list ProductImage.t)
    (results : gmap jsstring LabelDetectionResult.t) :
  NoDup (ProductImage._id <$> images) ->
  (forall id, id ∈ (ProductImage._id <$> images) -> results !! id = None) ->
  size (storeAll run images results) = size results + length images.
Proof.
  revert results. induction images as [| x xs IH]; intros results Hnd Hfresh.
  - simpl. lia.
  - cbn [fmap list_fmap] in Hnd, Hfresh.
    apply NoDup_cons in Hnd as [Hx Hnd].
    rewrite storeAll_cons.
    rewrite IH; [| exact Hnd |].
    + rewrite map_size_insert_None by (apply Hfresh; left). simpl. lia.
    + intros id Hid. rewrite lookup_insert_ne.
      * apply Hfresh. now right.
      * intros Heq. subst id. contradiction.
Qed.

(** C2, as the code has it: with a worker-pool size of at least 1 and
    images whose identifiers are pairwise distinct, the batch returns a map
    with one entry per image; an image whose pipeline throws is mapped to
    the failure record (not a label, confidence 0, reasoning "Error: "
    followed by the error, all-zero metrics), every other image to the
    result of its own [detectLabel]; no failure stops the batch. *)
Theorem batch_isolates_failures (workerPoolSize : nat)
    (images : list ProductImage.t) :
  0 < workerPoolSize ->
  NoDup (ProductImage._id <$> images) ->
  exists results,
    detectLabelsInBatch acquire elapsed workerPoolSize images = Some results /\
    size results = length images /\
    (forall image, image ∈ images ->
       match detectLabel acquire elapsed image with
       | Fulfilled value => results !! ProductImage._id image = Some value
       | Rejected reason =>
         results !! ProductImage._id image = Some (failureResult reason)
       end) /\
    (forall reason,
       LabelDetectionResult.isProductLabel (failureResult reason) = false /\
       LabelDetectionResult.confidence (failureResult reason) = 0%Q /\
       0 < length (LabelDetectionResult.reasoning (failureResult reason)) /\
       LabelDetectionResult.metrics (failureResult reason) = zeroMetrics).
Proof.
  intros Hsize Hnd. unfold detectLabelsInBatch.
  destruct (chunkArray_spec images workerPoolSize Hsize) as (chunks & -> & Hcat).
  eexists. split; [reflexivity |].
  rewrite store_chunks, Hcat. split; [| split].
  - rewrite storeAll_size; [| exact Hnd | intros; apply lookup_empty].
    now rewrite map_size_empty.
  - intros image Hin.
    pose proof (storeAll_lookup images ∅ image Hnd Hin) as H.
    destruct (run image); exact H.
  - intros reason. repeat split. simpl. lia.
Qed.

End WithPipeline.

Lemma batch_isolates_failures_witness :
  exists results,
    detectLabelsInBatch sampleAcquire sampleElapsed 2
      [imageWithId "a"; imageWithId "b"; imageWithId "c"] = Some results /\
    size results = 3.
Proof.
  destruct (batch_isolates_failures sampleAcquire sampleElapsed 2
              [imageWithId "a"; imageWithId "b"; imageWithId "c"])
    as (results & H1 & H2 & _).
  - lia.
  - vm_compute. repeat constructor; rewrite ?elem_of_cons, ?elem_of_nil;
      intros H; repeat destruct H as [H | H]; try discriminate H; exact H.
  - exists results. split; [exact H1 | exact H2].
Defined.

(** C2 as stated fails for a batch that repeats an identifier: two images
    with the same id leave one entry in the map, not two. *)
Lemma batch_duplicate_id_counterexample :
  let images := [imageWithId "a"; imageWithId "a"] in
  length images = 2 /\
  (size <$> detectLabelsInBatch sampleAcquire sampleElapsed 4 images) = Some 1.
Proof. split; vm_compute; reflexivity. Qed.

End Batch.

(** * Further properties of the services *)

(** ** Edit distance as a metric *)

Section DistanceMetric.
Import ImageAnalysisService Spec.

Lemma edits_zero a b : edits a b 0 -> a = b.
Proof.
  intros H. remember 0 as n eqn:E. induction H; try discriminate E.
  - reflexivity.
  - f_equal. auto.
Qed.

Lemma edits_max a b : edits a b (Nat.max (length a) (length b)).
Proof.
  revert b. induction a as [| x a IH]; intros b.
  - apply edits_from_nil.
  - destruct b as [| y b]; [apply edits_to_nil |].
    simpl. apply edits_subst, IH.
Qed.

(** Edit scripts compose: going through an intermediate string costs at
    most the sum. *)
Lemma edits_trans a b n :
  edits a b n -> forall c m, edits b c m -> exists k, k <= n + m /\ edits a c k.
Proof.
  induction 1 as [| x a b n H IH | x y a b n H IH | x a b n H IH
                  | y a b n H IH]; intros c m H2.
  - exists m. split; [lia | exact H2].
  - remember (x :: b) as xb eqn:E. revert E.
    induction H2 as [| z b0 c m H2 IH2 | z z' b0 c m H2 IH2
                     | z b0 c m H2 IH2 | z b0 c m H2 IH2]; intros E;
      try discriminate E.
    + injection E as -> ->. destruct (IH _ _ H2) as (k & Hk & Hac).
      exists k. split; [lia | now constructor].
    + injection E as -> ->. destruct (IH _ _ H2) as (k & Hk & Hac).
      exists (S k). split; [lia | now constructor].
    + injection E as -> ->. destruct (IH _ _ H2) as (k & Hk & Hac).
      exists (S k). split; [lia | now constructor].
    + destruct (IH2 E) as (k & Hk & Hac).
      exists (S k). split; [lia | now constructor].
  - remember (y :: b) as yb eqn:E. revert E.
    induction H2 as [| z b0 c m H2 IH2 | z z' b0 c m H2 IH2
                     | z b0 c m H2 IH2 | z b0 c m H2 IH2]; intros E;
      try discriminate E.
    + injection E as -> ->. destruct (IH _ _ H2) as (k & Hk & Hac).
      exists (S k). split; [lia | now constructor].
    + injection E as -> ->. destruct (IH _ _ H2) as (k & Hk & Hac).
      exists (S k). split; [lia | now constructor].
    + injection E as -> ->. destruct (IH _ _ H2) as (k & Hk & Hac).
      exists (S k). split; [lia | now constructor].
    + destruct (IH2 E) as (k & Hk & Hac).
      exists (S k). split; [lia | now constructor].
  - destruct (IH _ _ H2) as (k & Hk & Hac).
    exists (S k). split; [lia | now constructor].
  - remember (y :: b) as yb eqn:E. revert E.
    induction H2 as [| z b0 c m H2 IH2 | z z' b0 c m H2 IH2
                     | z b0 c m H2 IH2 | z b0 c m H2 IH2]; intros E;
      try discriminate E.
    + injection E as -> ->. destruct (IH _ _ H2) as (k & Hk & Hac).
      exists (S k). split; [lia | now constructor].
    + injection E as -> ->. destruct (IH _ _ H2) as (k & Hk & Hac).
      exists (S k). split; [lia | now constructor].
    + injection E as -> ->. destruct (IH _ _ H2) as (k & Hk & Hac).
      exists k. split; [lia | exact Hac].
    + destruct (IH2 E) as (k & Hk & Hac).
      exists (S k). split; [lia | now constructor].
Qed.

(** The distance does not depend on the order of its arguments. *)
Lemma distance_sym (s t : jsstring) :
  levenshteinDistance s t = levenshteinDistance t s.
Proof.
  eapply isEditDistance_unique; [apply levenshteinDistance_isEditDistance |].
  apply isEditDistance_sym, levenshteinDistance_isEditDistance.
Qed.

(** The distance is 0 exactly between equal strings. *)
Lemma distance_zero_iff (s t : jsstring) :
  levenshteinDistance s t = 0 <-> s = t.
Proof.
  destruct (levenshteinDistance_isEditDistance s t) as [H1 H2]. split.
  - intros E. rewrite E in H1. now apply edits_zero.
  - intros ->. pose proof (H2 0 (edits_refl t)). lia.
Qed.

(** The distance lies between the difference of the lengths and the
    larger length. *)
Lemma distance_bounds (s t : jsstring) :
  Nat.max (length s) (length t) - Nat.min (length s) (length t)
    <= levenshteinDistance s t
  /\ levenshteinDistance s t <= Nat.max (length s) (length t).
Proof.
  destruct (levenshteinDistance_isEditDistance s t) as [H1 H2]. split.
  - pose proof (edits_length_l _ _ _ H1). pose proof (edits_length_r _ _ _ H1).
    lia.
  - apply H2, edits_max.
Qed.

(** Triangle inequality. *)
Lemma distance_triangle (s t u : jsstring) :
  levenshteinDistance s u <= levenshteinDistance s t + levenshteinDistance t u.
Proof.
  destruct (levenshteinDistance_isEditDistance s t) as [Hst _].
  destruct (levenshteinDistance_isEditDistance t u) as [Htu _].
  destruct (levenshteinDistance_isEditDistance s u) as [_ Hmin].
  destruct (edits_trans _ _ _ Hst _ _ Htu) as (k & Hk & Hsu).
  apply Hmin in Hsu. lia.
Qed.

(** The value the matrix loop returns is a metric on strings: it is 0
    exactly between equal strings, it does not depend on the order of its
    arguments, and it satisfies the triangle inequality. *)
Theorem levenshteinDistance_metric (s t u : jsstring) :
  (levenshteinDistance s t = 0 <-> s = t)
  /\ levenshteinDistance s t = levenshteinDistance t s
  /\ levenshteinDistance s u <= levenshteinDistance s t + levenshteinDistance t u.
Proof.
  destruct (levenshteinDistance_isEditDistance s t) as [Hst Hst_min].
  destruct (levenshteinDistance_isEditDistance t u) as [Htu _].
  destruct (levenshteinDistance_isEditDistance s u) as [_ Hsu_min].
  split; [| split].
  - split.
    + intros E. rewrite E in Hst. now apply edits_zero.
    + intros ->. pose proof (Hst_min 0 (edits_refl t)). lia.
  - eapply isEditDistance_unique; [apply levenshteinDistance_isEditDistance |].
    apply isEditDistance_sym, levenshteinDistance_isEditDistance.
  - destruct (edits_trans _ _ _ Hst _ _ Htu) as (k & Hk & Hsu).
    apply Hsu_min in Hsu. lia.
Qed.

(** The value the matrix loop returns lies between the difference of the
    two lengths and the larger length. *)
Theorem levenshteinDistance_length_bounds (s t : jsstring) :
  Nat.max (length s) (length t) - Nat.min (length s) (length t)
    <= levenshteinDistance s t
  /\ levenshteinDistance s t <= Nat.max (length s) (length t).
Proof.
  destruct (levenshteinDistance_isEditDistance s t) as [Hedits Hmin]. split.
  - pose proof (edits_length_l _ _ _ Hedits).
    pose proof (edits_length_r _ _ _ Hedits). lia.
  - apply Hmin, edits_max.
Qed.

End DistanceMetric.

(** ** Similarity and fuzzy search *)

Section Matcher.
Import ImageAnalysisService Spec.

Lemma ofNat_le n m : n <= m -> (ofNat n <= ofNat m)%Q.
Proof. intros H. unfold ofNat. rewrite <- Zle_Qle. lia. Qed.

Lemma ofNat_pos n : n <> 0 -> (0 < ofNat n)%Q.
Proof.
  intros H. unfold ofNat. change 0%Q with (inject_Z 0). rewrite <- Zlt_Qlt. lia.
Qed.

Lemma ofNat_inj n m : (ofNat n == ofNat m)%Q -> n = m.
Proof. unfold ofNat. rewrite inject_Z_injective. lia. Qed.

Lemma toLowerCase_length s : length (toLowerCase s) = length s.
Proof. apply length_fmap. Qed.


(** The similarity does not depend on the order of its arguments. *)
Theorem similarity_sym (s1 s2 : jsstring) :
  similarity s1 s2 = similarity s2 s1.
Proof.
  unfold similarity.
  destruct (length s2 <? length s1) eqn:E1, (length s1 <? length s2) eqn:E2;
    try reflexivity.
  - apply Nat.ltb_lt in E1, E2. lia.
  - apply Nat.ltb_ge in E1, E2. assert (E : length s1 = length s2) by lia.
    rewrite E, (distance_sym (toLowerCase s2)). reflexivity.
Qed.

(** The similarity is 1 exactly when the two strings are equal up to
    case. *)
Theorem similarity_one_iff (s1 s2 : jsstring) :
  (similarity s1 s2 == 1)%Q <-> toLowerCase s1 = toLowerCase s2.
Proof.
  assert (Hsame : forall longer shorter : jsstring,
            length shorter <= length longer ->
            ((if length longer =? 0 then 1
              else (ofNat (length longer)
                    - ofNat (levenshteinDistance (toLowerCase longer)
                                                 (toLowerCase shorter)))
                   / ofNat (length longer)) == 1)%Q
            <-> toLowerCase longer = toLowerCase shorter).
  { intros longer shorter Hlen.
    destruct (length longer =? 0) eqn:E0.
    - apply Nat.eqb_eq in E0.
      destruct longer; [| discriminate E0]. destruct shorter; [| simpl in Hlen; lia].
      split; reflexivity.
    - apply Nat.eqb_neq in E0. pose proof (ofNat_nonzero _ E0) as Hnz.
      rewrite <- distance_zero_iff.
      set (d := levenshteinDistance _ _). split.
      + intros H.
        assert (H' : (ofNat (length longer) - ofNat d == ofNat (length longer))%Q).
        { rewrite <- (Qmult_div_r (ofNat (length longer) - ofNat d)
                                  (ofNat (length longer))) by exact Hnz.
          unfold Qdiv in *. rewrite Qmult_assoc.
          rewrite (Qmult_comm (ofNat (length longer)) (ofNat (length longer) - ofNat d)).
          rewrite <- Qmult_assoc, (Qmult_comm (ofNat (length longer))
                                              (/ ofNat (length longer))).
          rewrite Qmult_assoc, H. ring. }
        apply (ofNat_inj d 0). change (ofNat 0) with 0%Q.
        apply Qplus_inj_l with (z := (ofNat (length longer) - ofNat d)%Q).
        rewrite H' at 2. ring.
      + intros ->. change (ofNat 0) with 0%Q. field. exact Hnz. }
  unfold similarity.
  destruct (length s2 <? length s1) eqn:E;
    [apply Nat.ltb_lt in E | apply Nat.ltb_ge in E].
  - apply Hsame. lia.
  - rewrite Hsame by lia. split; intros H; now symmetry.
Qed.

Lemma startsWith_app p s : startsWith p (p ++ s) = true.
Proof. induction p as [| c p IH]; simpl; [done |]. now rewrite N.eqb_refl. Qed.

Lemma startsWith_spec p s : startsWith p s = true <-> exists r, s = p ++ r.
Proof.
  revert s. induction p as [| c p IH]; intros s; simpl.
  - split; [intros _; now exists s | done].
  - destruct s as [| d s].
    + split; [done | intros [r Hr]; discriminate Hr].
    + rewrite andb_true_iff, N.eqb_eq, IH. split.
      * intros [-> [r ->]]. now exists r.
      * intros [r Hr]. injection Hr as -> ->. split; [done | now exists r].
Qed.

(** [includes] is the substring test. *)
Lemma includes_spec s p :
  includes s p = true <-> exists pre post, s = pre ++ p ++ post.
Proof.
  induction s as [| c s IH]; simpl.
  - rewrite orb_false_r, startsWith_spec. split.
    + intros [r Hr]. now exists [], r.
    + intros (pre & post & H). destruct pre; [| discriminate H]. now exists post.
  - rewrite orb_true_iff, startsWith_spec, IH. split.
    + intros [[r Hr] | (pre & post & Hs)].
      * now exists [], r.
      * exists (c :: pre), post. simpl. now rewrite Hs.
    + intros (pre & post & H). destruct pre as [| c' pre].
      * left. now exists post.
      * right. injection H as -> H. now exists pre, post.
Qed.


(** Lowering the threshold never loses a match. *)
Theorem fuzzySearch_threshold_mono (text keyword : jsstring) (t1 t2 : Q) :
  (t1 <= t2)%Q ->
  fuzzySearch text keyword t2 = true -> fuzzySearch text keyword t1 = true.
Proof.
  intros Hle. unfold fuzzySearch.
  destruct (includes (toLowerCase text) (toLowerCase keyword)); [done |].
  set (ws := splitWs (toLowerCase text)).
  set (fits := fun (t : Q) (word : jsstring) =>
         (Z.of_nat (length (toLowerCase keyword)) - 2 <=?
            Z.of_nat (length word))%Z
         && Qle_bool t (similarity word (toLowerCase keyword))).
  change (existsb _ ws) with (existsb (fits t2) ws) at 1.
  change (existsb _ ws) with (existsb (fits t1) ws) at 2.
  assert (Hmono : existsb (fits t2) ws = true -> existsb (fits t1) ws = true).
  { intros E2. apply existsb_exists in E2 as (w & Hin & Hw).
    apply andb_true_iff in Hw as [Hlen Hsim].
    apply existsb_exists. exists w. split; [exact Hin |].
    apply andb_true_iff. split; [exact Hlen |].
    apply Qle_bool_iff. apply Qle_bool_iff in Hsim.
    eapply Qle_trans; eassumption. }
  destruct (existsb (fits t2) ws).
  - now rewrite Hmono.
  - intros H. now destruct (existsb (fits t1) ws).
Qed.

End Matcher.

(** ** Density metrics *)

Section DensityFacts.
Import ImageAnalysisService Spec.

(** The block count depends only on which points occur, not on their
    order or on how often each occurs. *)
Theorem countTextBlocks_same_points (points points' : list (Q * Q))
    (imageWidth imageHeight : Q) :
  (forall p, p ∈ points <-> p ∈ points') ->
  countTextBlocks points imageWidth imageHeight =
  countTextBlocks points' imageWidth imageHeight.
Proof.
  intros H. rewrite !countTextBlocks_keys. f_equal.
  apply set_eq. intros k. rewrite !elem_of_list_to_set, !list_elem_of_fmap.
  split; intros (p & -> & Hp); exists p; (split; [reflexivity | now apply H]).
Qed.

Lemma countTextBlocks_same_points_witness :
  countTextBlocks [(10, 10); (300, 10); (10, 10)]%Q 1000 1000 =
  countTextBlocks [(300, 10); (10, 10)]%Q 1000 1000.
Proof.
  apply countTextBlocks_same_points. intros p.
  rewrite !elem_of_cons, !elem_of_nil. tauto.
Defined.

(** One more point adds at most one block and removes none. *)
Theorem countTextBlocks_step (points : list (Q * Q)) (p : Q * Q)
    (imageWidth imageHeight : Q) :
  countTextBlocks points imageWidth imageHeight
    <= countTextBlocks (points ++ [p]) imageWidth imageHeight
    <= S (countTextBlocks points imageWidth imageHeight).
Proof.
  rewrite !countTextBlocks_keys, fmap_app, list_to_set_app_L.
  cbn [fmap list_fmap list_to_set]. rewrite union_empty_r_L. split.
  - apply subseteq_size, union_subseteq_l.
  - rewrite size_union_alt.
    assert (Hsub : ({[cellKey (imageWidth / 5) (imageHeight / 5) p]} : gset jsstring)
                     ∖ list_to_set (cellKey (imageWidth / 5) (imageHeight / 5)
                                      <$> points)
                   ⊆ {[cellKey (imageWidth / 5) (imageHeight / 5) p]}).
    { intros y Hy. apply elem_of_difference in Hy. tauto. }
    apply subseteq_size in Hsub. rewrite size_singleton in Hsub. lia.
Qed.




Lemma area_sum_nonneg (ws : list OCRWord.t) (s0 : Q) :
  Forall wellFormed ws -> (0 <= s0)%Q ->
  (0 <= foldl (fun t w => (t + wordArea w)%Q) s0 ws)%Q.
Proof.
  intros H. revert s0. induction H as [| w ws [Hx Hy] _ IH]; intros s0 H0.
  - exact H0.
  - cbn [foldl]. apply IH.
    rewrite <- (Qplus_0_r 0). apply Qplus_le_compat; [exact H0 |].
    unfold wordArea. apply Qmult_le_0_compat;
      unfold Qminus; apply (proj1 (Qle_minus_iff _ _)); assumption.
Qed.

(** For an image of positive area and boxes that are not inverted, the
    text area and the coverage percentage are never negative, whichever
    branch the analyzer takes. *)
Theorem density_nonnegative (ocr : OCRResult.t) (width height : Q) :
  (0 < width * height)%Q ->
  Forall wellFormed (OCRResult.words ocr) ->
  let d := analyzeTextDensity ocr width height in
  (0 <= TextDensityAnalysis.totalTextArea d)%Q /\
  (0 <= TextDensityAnalysis.textCoveragePercentage d)%Q.
Proof.
  intros Harea Hwf d. unfold d, analyzeTextDensity.
  destruct (0 <? length (OCRResult.words ocr)) eqn:Ew.
  - destruct (analyzeFromWords_fields ocr (width * height)%Q)
      as (-> & -> & _).
    pose proof (area_sum_nonneg _ 0 Hwf (Qle_refl 0)) as Hsum.
    split; [exact Hsum |].
    apply Qmult_le_0_compat; [| discriminate].
    apply Qle_shift_div_l; [exact Harea |]. now rewrite Qmult_0_l.
  - destruct (0 <? length (trim (OCRResult.text ocr))) eqn:Et.
    + unfold analyzeFromPlainText.
      cbn [TextDensityAnalysis.totalTextArea
             TextDensityAnalysis.textCoveragePercentage].
      assert (Hest : (0 <= ofNat (length (trim (OCRResult.text ocr))) * 10 * 15)%Q).
      { repeat apply Qmult_le_0_compat; try discriminate.
        apply (ofNat_le 0). lia. }
      split; [exact Hest |].
      apply Q.min_glb; [| discriminate].
      apply Qmult_le_0_compat; [| discriminate].
      apply Qle_shift_div_l; [exact Harea |]. now rewrite Qmult_0_l.
    + split; apply Qle_refl.
Qed.

Lemma density_nonnegative_witness :
  (0 <= TextDensityAnalysis.textCoveragePercentage
          (analyzeTextDensity twoWords 640 480))%Q.
Proof.
  apply (density_nonnegative twoWords 640 480).
  - reflexivity.
  - repeat constructor; vm_compute; discriminate.
Defined.

Lemma text_blocks_within_reference_witness :
  TextDensityAnalysis.textBlockCount (analyzeTextDensity twoWords 640 480) <= 25.
Proof.
  apply text_blocks_within_reference.
  - repeat constructor; vm_compute; try discriminate; reflexivity.
  - discriminate.
Defined.

End DensityFacts.

(** ** Signal detectors *)

Section RegexFacts.
Import Regex.

Lemma matchFuel_Seq f a b prev s k :
  matchFuel (S f) (Seq a b) prev s k =
  matchFuel (S f) a prev s (fun p' s' => matchFuel (S f) b p' s' k).
Proof. reflexivity. Qed.

Lemma matchFuel_Eps f prev s k : matchFuel (S f) Eps prev s k = k prev s.
Proof. reflexivity. Qed.

Lemma matchFuel_Chr f p prev c s k :
  p c = true -> matchFuel (S f) (Chr p) prev (c :: s) k = k (Some c) s.
Proof. intros H. cbn. now rewrite H. Qed.

(** A repetition followed by something that always succeeds succeeds. *)
Lemma matchFuel_Star_total f a prev s k :
  (forall p' s', is_Some (k p' s')) ->
  is_Some (matchFuel (S f) (Star a) prev s k).
Proof.
  intros Hk.
  change (matchFuel (S f) (Star a) prev s k) with
    (match matchFuel (S f) a prev s
             (fun p' s' => if length s' <? length s
                           then matchFuel f (Star a) p' s' k else None) with
     | Some x => Some x
     | None => k prev s
     end).
  destruct (matchFuel (S f) a prev s _); [eauto | apply Hk].
Qed.

Lemma matchFuel_times f p ds :
  Forall (fun c => p c = true) ds ->
  forall prev rest k,
    matchFuel (S f) (times (length ds) (Chr p)) prev (ds ++ rest) k =
    k (last (prev :: (Some <$> ds)) ≫= id) rest.
Proof.
  induction 1 as [| d ds Hd _ IH]; intros prev rest k.
  - cbn [length times app]. rewrite matchFuel_Eps. now destruct prev.
  - cbn [length times]. rewrite matchFuel_Seq.
    change ((d :: ds) ++ rest) with (d :: (ds ++ rest)).
    rewrite matchFuel_Chr by exact Hd. rewrite IH. reflexivity.
Qed.

(** A run of eight digits is matched by [/\d{8,}/] wherever it starts. *)
Lemma longNumber_matches (ds rest : jsstring) (prev : option N) :
  length ds = 8 -> Forall (fun c => isDigit c = true) ds ->
  is_Some (matchAt ImageAnalysisService.longNumberRe prev (ds ++ rest)).
Proof.
  intros Hlen Hds. unfold matchAt, ImageAnalysisService.longNumberRe.
  rewrite matchFuel_Seq, <- Hlen.
  unfold digit. rewrite (matchFuel_times _ _ _ Hds).
  apply matchFuel_Star_total. eauto.
Qed.

(** A global search finds at least one match when the pattern matches
    somewhere, whatever precedes that place. *)
Lemma countFrom_pos (r : regex) (pre post : jsstring) :
  (forall prev, is_Some (matchAt r prev post)) ->
  forall fuel prev, length (pre ++ post) < fuel ->
    0 < countFrom fuel r prev (pre ++ post).
Proof.
  intros Hpost. induction pre as [| c pre IH]; intros fuel prev Hfuel;
    (destruct fuel as [| f]; [lia |]); cbn [countFrom].
  - cbn [app]. destruct (Hpost prev) as [[p' s'] ->].
    destruct (length s' <? length post); [lia |]. destruct post; lia.
  - destruct (matchAt r prev ((c :: pre) ++ post)) as [[p' s'] |].
    + destruct (length s' <? length ((c :: pre) ++ post)); [lia |].
      cbn [app]. lia.
    + cbn [app]. apply IH. simpl in Hfuel. lia.
Qed.

End RegexFacts.

Section Detectors.
Import ImageAnalysisService Spec.

(** A text with a run of eight digits is reported as carrying a barcode,
    with a confidence of at least 0.6. *)
Theorem digit_run_is_barcode (ocr : OCRResult.t) (pre ds post : jsstring) :
  OCRResult.text ocr = pre ++ ds ++ post ->
  length ds = 8 -> Forall (fun c => isDigit c = true) ds ->
  BarcodeQRAnalysis.hasBarcode (detectBarcodeQR ocr) = true /\
  (6 # 10 <= BarcodeQRAnalysis.confidence (detectBarcodeQR ocr))%Q.
Proof.
  intros Htext Hlen Hds.
  assert (Hcount : (0 <? Regex.matchCount longNumberRe (OCRResult.text ocr)) = true).
  { apply Nat.ltb_lt. unfold Regex.matchCount. rewrite Htext.
    apply countFrom_pos; [| lia].
    intros prev. now apply longNumber_matches. }
  unfold detectBarcodeQR.
  cbn [BarcodeQRAnalysis.hasBarcode BarcodeQRAnalysis.confidence].
  rewrite Hcount. split; [apply orb_true_r |].
  destruct (_ || _); discriminate.
Qed.

Lemma digit_run_is_barcode_witness :
  BarcodeQRAnalysis.hasBarcode
    (detectBarcodeQR (OCRResult.mk (js "Lote 7501234567890 A") 80 [])) = true.
Proof.
  apply (digit_run_is_barcode (OCRResult.mk (js "Lote 7501234567890 A") 80 [])
           (js "Lote ") (js "75012345") (js "67890 A")).
  - reflexivity.
  - reflexivity.
  - repeat constructor.
Defined.

(** The confidence of the barcode/QR analysis takes one of three values:
    0.8 whenever a QR code is reported, 0.3 exactly when neither a QR code
    nor a barcode is reported, and 0.6 or 0.8 otherwise. *)
Theorem barcode_confidence_levels (ocr : OCRResult.t) :
  let r := detectBarcodeQR ocr in
  (BarcodeQRAnalysis.hasQRCode r = true ->
     BarcodeQRAnalysis.confidence r = 8 # 10) /\
  (BarcodeQRAnalysis.confidence r = 3 # 10 <->
     BarcodeQRAnalysis.hasQRCode r = false /\
     BarcodeQRAnalysis.hasBarcode r = false) /\
  (BarcodeQRAnalysis.hasBarcode r = true ->
     BarcodeQRAnalysis.confidence r = 6 # 10 \/
     BarcodeQRAnalysis.confidence r = 8 # 10).
Proof.
  unfold detectBarcodeQR.
  cbn [BarcodeQRAnalysis.hasBarcode BarcodeQRAnalysis.hasQRCode
         BarcodeQRAnalysis.confidence].
  destruct (existsb _ qrPatterns), (existsb _ barcodePatterns),
    (0 <? Regex.matchCount longNumberRe (OCRResult.text ocr));
    cbn [orb]; repeat split; intros; try discriminate; try tauto;
    match goal with H : _ /\ _ |- _ => destruct H; discriminate end.
Qed.

Lemma keywords_lowercase :
  Forall (fun k => toLowerCase k = k)
         (nutritionalKeywords ++ ingredientKeywords ++ storageKeywords
          ++ manufacturerKeywords).
Proof. repeat constructor. Qed.

Lemma fuzzySearch_included (text keyword : jsstring) (threshold : Q) :
  toLowerCase keyword = keyword ->
  includes (toLowerCase text) keyword = true ->
  fuzzySearch text keyword threshold = true.
Proof. intros Hk H. unfold fuzzySearch. now rewrite Hk, H. Qed.

(** A text that contains, in any case, a word of the nutrition, storage
    or manufacturer vocabulary makes the corresponding detector fire. *)
Theorem vocabulary_detectors_fire (ocr : OCRResult.t) (keyword : jsstring) :
  includes (toLowerCase (OCRResult.text ocr)) keyword = true ->
  (keyword ∈ nutritionalKeywords -> hasNutritionalInfo ocr = true) /\
  (keyword ∈ storageKeywords -> hasStorageInfo ocr = true) /\
  (keyword ∈ manufacturerKeywords -> hasManufacturerInfo ocr = true).
Proof.
  intros Hinc. pose proof keywords_lowercase as Hlow.
  rewrite !Forall_app in Hlow. destruct Hlow as (Hn & _ & Hs & Hm).
  rewrite Forall_forall in Hn, Hs, Hm.
  repeat split; intros Hin.
  - unfold hasNutritionalInfo.
    assert (Hf : keyword ∈ List.filter
                   (fun k => fuzzySearch (OCRResult.text ocr) k (7 # 10))
                   nutritionalKeywords).
    { apply list_elem_of_In, filter_In. split; [now apply list_elem_of_In |].
      apply fuzzySearch_included; auto. }
    destruct (List.filter _ nutritionalKeywords) as [| k ks];
      [now apply elem_of_nil in Hf | reflexivity].
  - unfold hasStorageInfo. apply existsb_exists. exists keyword.
    split; [now apply list_elem_of_In |]. apply fuzzySearch_included; auto.
  - unfold hasManufacturerInfo. apply existsb_exists. exists keyword.
    split; [now apply list_elem_of_In |]. apply fuzzySearch_included; auto.
Qed.

Lemma vocabulary_detectors_fire_witness :
  hasStorageInfo (OCRResult.mk (js "CONSERVAR EN REFRIGERACION") 80 []) = true.
Proof.
  destruct (vocabulary_detectors_fire
              (OCRResult.mk (js "CONSERVAR EN REFRIGERACION") 80 [])
              (js "refrigera")) as (_ & H & _).
  - reflexivity.
  - apply H. vm_compute. apply list_elem_of_In. vm_compute. tauto.
Defined.

End Detectors.

Section IngredientsDetector.
Import ImageAnalysisService Spec.

Lemma two_members {A : Type} (x y : A) (l : list A) :
  x ∈ l -> y ∈ l -> x <> y -> 2 <= length l.
Proof.
  intros Hx Hy Hne. destruct l as [| a [| b l]]; simpl; try lia.
  - now apply elem_of_nil in Hx.
  - apply list_elem_of_singleton in Hx, Hy. congruence.
Qed.

Lemma includes_prefix (s p q : jsstring) :
  includes s (p ++ q) = true -> includes s p = true.
Proof.
  rewrite !includes_spec. intros (pre & post & ->).
  exists pre, (q ++ post). now rewrite <- app_assoc.
Qed.

(** The ingredients detector fires as soon as the text contains, in any
    case, two different words of its vocabulary; the word "ingredientes"
    is enough on its own, since it contains "ingrediente". *)
Theorem ingredients_two_keywords (ocr : OCRResult.t) :
  (forall k1 k2,
     k1 ∈ ingredientKeywords -> k2 ∈ ingredientKeywords -> k1 <> k2 ->
     includes (toLowerCase (OCRResult.text ocr)) k1 = true ->
     includes (toLowerCase (OCRResult.text ocr)) k2 = true ->
     hasIngredients ocr = true) /\
  (includes (toLowerCase (OCRResult.text ocr)) (js "ingredientes") = true ->
   hasIngredients ocr = true).
Proof.
  assert (Hgen : forall k1 k2,
     k1 ∈ ingredientKeywords -> k2 ∈ ingredientKeywords -> k1 <> k2 ->
     includes (toLowerCase (OCRResult.text ocr)) k1 = true ->
     includes (toLowerCase (OCRResult.text ocr)) k2 = true ->
     hasIngredients ocr = true).
  { intros k1 k2 H1 H2 Hne I1 I2. unfold hasIngredients. apply Nat.leb_le.
    pose proof keywords_lowercase as Hlow.
    rewrite !Forall_app in Hlow. destruct Hlow as (_ & Hi & _).
    rewrite Forall_forall in Hi.
    apply (two_members k1 k2); [| | exact Hne];
      apply list_elem_of_In, filter_In;
      (split; [now apply list_elem_of_In |]);
      apply fuzzySearch_included; auto. }
  split; [exact Hgen |].
  intros H. apply (Hgen (js "ingrediente") (js "ingredientes")).
  - apply list_elem_of_In. vm_compute. tauto.
  - apply list_elem_of_In. vm_compute. tauto.
  - discriminate.
  - apply (includes_prefix _ (js "ingrediente") (js "s")). exact H.
  - exact H.
Qed.

Lemma ingredients_two_keywords_witness :
  hasIngredients (OCRResult.mk (js "INGREDIENTES: harina") 80 []) = true.
Proof.
  destruct (ingredients_two_keywords
              (OCRResult.mk (js "INGREDIENTES: harina") 80 [])) as [_ H].
  apply H. reflexivity.
Defined.

End IngredientsDetector.

(** ** Scoring engine: bounds *)

Section ScoreBounds.
Import ImageAnalysisService LabelDetectionService Spec.

Lemma awardsAtMost_score cap f a :
  (0 <= cap)%Q -> awardsAtMost cap f ->
  (score a <= score (f a) <= score a + cap)%Q.
Proof.
  intros Hcap Hf. destruct (Hf a) as [-> | (p & r & -> & Hp0 & Hpc)].
  - split; [apply Qle_refl |].
    rewrite <- (Qplus_0_r (score a)) at 1. now apply Qplus_le_r.
  - cbn [score award]. split.
    + rewrite <- (Qplus_0_r (score a)) at 1. now apply Qplus_le_r.
    + now apply Qplus_le_r.
Qed.

(** Twenty points at most per reason given. *)
Lemma awardsAtMost_reasons cap f a :
  (cap <= 20)%Q -> awardsAtMost cap f ->
  (score a <= 20 * ofNat (length (reasons a)))%Q ->
  (score (f a) <= 20 * ofNat (length (reasons (f a))))%Q.
Proof.
  intros Hcap Hf Ha. destruct (Hf a) as [-> | (p & r & -> & Hp0 & Hpc)];
    [exact Ha |].
  cbn [score reasons award]. rewrite length_app. cbn [length].
  assert (E : (20 * ofNat (length (reasons a) + 1)
               == 20 * ofNat (length (reasons a)) + 20)%Q).
  { unfold ofNat. rewrite Nat2Z.inj_add, inject_Z_plus.
    change (inject_Z (Z.of_nat 1)) with 1%Q. ring. }
  rewrite E. apply Qplus_le_compat; [exact Ha |].
  eapply Qle_trans; eassumption.
Qed.

Ltac award_case :=
  first [ left; reflexivity
        | right; eexists _, _; split; [reflexivity |];
          split; vm_compute; discriminate ].

Lemma criterio0_awards ocr : awardsAtMost 15 (criterio0 ocr).
Proof. intros a. unfold criterio0. repeat case_match; award_case. Qed.

Lemma criterio1_awards d : awardsAtMost 20 (criterio1 d).
Proof.
  intros a. unfold criterio1.
  destruct (Qle_bool _ _) eqn:E; cbn [negb]; [now left |].
  right. eexists _, _. split; [reflexivity |]. split; [| apply Q.le_min_l].
  apply Q.min_glb; [discriminate |].
  assert (Hgt : (1 # 10 < TextDensityAnalysis.textCoveragePercentage d / 100)%Q).
  { apply Qnot_le_lt. intros H. apply Qle_bool_iff in H. congruence. }
  apply Qmult_le_0_compat; [| discriminate].
  apply Qmult_le_0_compat; [| discriminate].
  apply Qlt_le_weak. eapply Qlt_trans; [| exact Hgt]. reflexivity.
Qed.

Lemma criterio2_awards d : awardsAtMost 15 (criterio2 d).
Proof. intros a. unfold criterio2. repeat case_match; award_case. Qed.

Lemma criterio3_awards d : awardsAtMost 15 (criterio3 d).
Proof. intros a. unfold criterio3. repeat case_match; award_case. Qed.

Lemma criterio4_awards nut : awardsAtMost 20 (criterio4 nut).
Proof. intros a. unfold criterio4. repeat case_match; award_case. Qed.

Lemma criterio5_awards ocr : awardsAtMost 10 (criterio5 ocr).
Proof. intros a. unfold criterio5. repeat case_match; award_case. Qed.

Lemma criterio6_awards ocr : awardsAtMost 5 (criterio6 ocr).
Proof. intros a. unfold criterio6. repeat case_match; award_case. Qed.

Lemma criterio7_awards ocr : awardsAtMost 5 (criterio7 ocr).
Proof. intros a. unfold criterio7. repeat case_match; award_case. Qed.

Lemma criterio8_awards bq : awardsAtMost 5 (criterio8 bq).
Proof. intros a. unfold criterio8. repeat case_match; award_case. Qed.

Lemma scoreCriteria_chain d bq nut ocr :
  exists a0 a1 a2 a3 a4 a5 a6 a7 a8,
    a0 = criterio0 ocr acc0 /\ a1 = criterio1 d a0 /\ a2 = criterio2 d a1 /\
    a3 = criterio3 d a2 /\ a4 = criterio4 nut a3 /\ a5 = criterio5 ocr a4 /\
    a6 = criterio6 ocr a5 /\ a7 = criterio7 ocr a6 /\
    a8 = criterio8 bq a7 /\ scoreCriteria d bq nut ocr = a8.
Proof. repeat eexists. Qed.

(** The total score lies between 0 and 110 (the weights add up to 110,
    not to 100, and all of them can be awarded together), and the
    confidence between 0 and 1. *)
Theorem score_bounds (d : TextDensityAnalysis.t) (bq : BarcodeQRAnalysis.t)
    (nut : bool) (ocr : OCRResult.t) :
  (0 <= score (scoreCriteria d bq nut ocr) <= 110)%Q /\
  (0 <= LabelScore.confidence (calculateLabelScore d bq nut ocr) <= 1)%Q /\
  (score (scoreCriteria (TextDensityAnalysis.mk 0 0 50 6 90 40)
                        (BarcodeQRAnalysis.mk true true (8 # 10)) true
                        fullLabelOCR) == 110)%Q.
Proof.
  assert (Hs : (0 <= score (scoreCriteria d bq nut ocr) <= 110)%Q).
  { destruct (scoreCriteria_chain d bq nut ocr)
      as (a0 & a1 & a2 & a3 & a4 & a5 & a6 & a7 & a8 &
          E0 & E1 & E2 & E3 & E4 & E5 & E6 & E7 & E8 & ->).
    pose proof (awardsAtMost_score 15 _ acc0 ltac:(discriminate)
                  (criterio0_awards ocr)) as H0.
    pose proof (awardsAtMost_score 20 _ a0 ltac:(discriminate)
                  (criterio1_awards d)) as H1.
    pose proof (awardsAtMost_score 15 _ a1 ltac:(discriminate)
                  (criterio2_awards d)) as H2.
    pose proof (awardsAtMost_score 15 _ a2 ltac:(discriminate)
                  (criterio3_awards d)) as H3.
    pose proof (awardsAtMost_score 20 _ a3 ltac:(discriminate)
                  (criterio4_awards nut)) as H4.
    pose proof (awardsAtMost_score 10 _ a4 ltac:(discriminate)
                  (criterio5_awards ocr)) as H5.
    pose proof (awardsAtMost_score 5 _ a5 ltac:(discriminate)
                  (criterio6_awards ocr)) as H6.
    pose proof (awardsAtMost_score 5 _ a6 ltac:(discriminate)
                  (criterio7_awards ocr)) as H7.
    pose proof (awardsAtMost_score 5 _ a7 ltac:(discriminate)
                  (criterio8_awards bq)) as H8.
    rewrite <- E0 in H0. rewrite <- E1 in H1. rewrite <- E2 in H2.
    rewrite <- E3 in H3. rewrite <- E4 in H4. rewrite <- E5 in H5.
    rewrite <- E6 in H6. rewrite <- E7 in H7. rewrite <- E8 in H8.
    change (score acc0) with 0%Q in H0.
    clear E0 E1 E2 E3 E4 E5 E6 E7 E8.
    generalize dependent (score a0). generalize dependent (score a1).
    generalize dependent (score a2). generalize dependent (score a3).
    generalize dependent (score a4). generalize dependent (score a5).
    generalize dependent (score a6). generalize dependent (score a7).
    generalize dependent (score a8). intros. lra. }
  split; [exact Hs |]. split; [| vm_compute; reflexivity].
  unfold calculateLabelScore. cbn [LabelScore.confidence].
  split; [| apply Q.le_min_r].
  apply Q.min_glb; [| discriminate].
  apply Qle_shift_div_l; [reflexivity |]. rewrite Qmult_0_l. apply Hs.
Qed.

(** The image is classified as a label exactly when the confidence is at
    least 0.45. *)
Theorem label_iff_confidence (d : TextDensityAnalysis.t)
    (bq : BarcodeQRAnalysis.t) (nut : bool) (ocr : OCRResult.t) :
  let r := calculateLabelScore d bq nut ocr in
  LabelScore.isLabel r = true <-> (45 # 100 <= LabelScore.confidence r)%Q.
Proof.
  unfold calculateLabelScore. cbn [LabelScore.isLabel LabelScore.confidence].
  set (s := score (scoreCriteria d bq nut ocr)).
  rewrite Qle_bool_iff, Q.min_glb_iff. split.
  - intros H. split; [| discriminate].
    apply Qle_shift_div_l; [reflexivity |].
    eapply Qle_trans; [| exact H]. discriminate.
  - intros [H _].
    assert (H' : (45 # 100 <= s * (1 # 100))%Q) by exact H.
    lra.
Qed.

(** A label decision always rests on at least three criteria: no
    criterion is worth more than 20 points and the threshold is 45. *)
Theorem label_needs_three_reasons (d : TextDensityAnalysis.t)
    (bq : BarcodeQRAnalysis.t) (nut : bool) (ocr : OCRResult.t) :
  LabelScore.isLabel (calculateLabelScore d bq nut ocr) = true ->
  3 <= length (reasons (scoreCriteria d bq nut ocr)).
Proof.
  unfold calculateLabelScore. cbn [LabelScore.isLabel].
  rewrite Qle_bool_iff. intros Hlabel.
  assert (Hinv : (score (scoreCriteria d bq nut ocr)
                  <= 20 * ofNat (length (reasons (scoreCriteria d bq nut ocr))))%Q).
  { unfold scoreCriteria.
    apply (awardsAtMost_reasons 5); [discriminate | apply criterio8_awards |].
    apply (awardsAtMost_reasons 5); [discriminate | apply criterio7_awards |].
    apply (awardsAtMost_reasons 5); [discriminate | apply criterio6_awards |].
    apply (awardsAtMost_reasons 10); [discriminate | apply criterio5_awards |].
    apply (awardsAtMost_reasons 20); [discriminate | apply criterio4_awards |].
    apply (awardsAtMost_reasons 15); [discriminate | apply criterio3_awards |].
    apply (awardsAtMost_reasons 15); [discriminate | apply criterio2_awards |].
    apply (awardsAtMost_reasons 20); [discriminate | apply criterio1_awards |].
    apply (awardsAtMost_reasons 15); [discriminate | apply criterio0_awards |].
    discriminate. }
  destruct (le_lt_dec 3 (length (reasons (scoreCriteria d bq nut ocr))))
    as [Hok | Hfew]; [exact Hok | exfalso].
  assert (Hn : (ofNat (length (reasons (scoreCriteria d bq nut ocr))) <= 2)%Q).
  { apply (ofNat_le _ 2). lia. }
  generalize dependent (score (scoreCriteria d bq nut ocr)).
  generalize dependent (ofNat (length (reasons (scoreCriteria d bq nut ocr)))).
  intros. lra.
Qed.

Lemma label_needs_three_reasons_witness :
  3 <= length (reasons (scoreCriteria (TextDensityAnalysis.mk 0 0 50 6 90 40)
                                      (BarcodeQRAnalysis.mk true true (8 # 10))
                                      true fullLabelOCR)).
Proof.
  apply label_needs_three_reasons. vm_compute. reflexivity.
Defined.

Lemma criterio1_score d a :
  (score (criterio1 d a) ==
   score a + coveragePoints (TextDensityAnalysis.textCoveragePercentage d))%Q.
Proof.
  unfold criterio1, coveragePoints.
  destruct (Qle_bool _ _); cbn [negb award score]; [ring | reflexivity].
Qed.

Lemma criterio2_score d a :
  (score (criterio2 d a) ==
   score a + blockPoints (TextDensityAnalysis.textBlockCount d))%Q.
Proof.
  unfold criterio2, blockPoints.
  repeat case_match; cbn [award score]; try reflexivity. ring.
Qed.

Lemma blockPoints_mono n m : n <= m -> (blockPoints n <= blockPoints m)%Q.
Proof.
  intros H. unfold blockPoints.
  repeat case_match;
    repeat match goal with
           | E : (_ <=? _) = true |- _ => apply Nat.leb_le in E
           | E : (_ <=? _) = false |- _ => apply Nat.leb_gt in E
           end;
    try lia; vm_compute; congruence.
Qed.

Lemma coveragePoints_mono p q : (p <= q)%Q -> (coveragePoints p <= coveragePoints q)%Q.
Proof.
  intros H. unfold coveragePoints.
  assert (Hr : (p / 100 <= q / 100)%Q).
  { apply Qmult_le_compat_r; [exact H | discriminate]. }
  destruct (Qle_bool (p / 100) (1 # 10)) eqn:Ep,
           (Qle_bool (q / 100) (1 # 10)) eqn:Eq; cbn [negb].
  - apply Qle_refl.
  - apply Q.min_glb; [discriminate |].
    assert (Hgt : ~ (q / 100 <= 1 # 10)%Q)
      by (intros G; apply Qle_bool_iff in G; congruence).
    apply Qnot_le_lt in Hgt.
    apply Qmult_le_0_compat; [| discriminate].
    apply Qmult_le_0_compat; [| discriminate].
    apply Qlt_le_weak. eapply Qlt_trans; [| exact Hgt]. reflexivity.
  - exfalso. apply Qle_bool_iff in Eq.
    assert (G : (p / 100 <= 1 # 10)%Q) by (eapply Qle_trans; eassumption).
    apply Qle_bool_iff in G. congruence.
  - apply Q.min_le_compat_l.
    apply Qmult_le_compat_r; [| discriminate].
    apply Qmult_le_compat_r; [exact Hr | discriminate].
Qed.

(** The total score is monotone in the three density metrics together:
    more coverage, more blocks and more words never lower it. *)
Theorem score_monotone_in_density (d1 d2 : TextDensityAnalysis.t)
    (bq : BarcodeQRAnalysis.t) (nut : bool) (ocr : OCRResult.t) :
  (TextDensityAnalysis.textCoveragePercentage d1
   <= TextDensityAnalysis.textCoveragePercentage d2)%Q ->
  TextDensityAnalysis.textBlockCount d1 <= TextDensityAnalysis.textBlockCount d2 ->
  TextDensityAnalysis.wordsDetected d1 <= TextDensityAnalysis.wordsDetected d2 ->
  (score (scoreCriteria d1 bq nut ocr) <= score (scoreCriteria d2 bq nut ocr))%Q.
Proof.
  intros Hc Hb Hw. unfold scoreCriteria.
  apply criterio8_mono, criterio7_mono, criterio6_mono, criterio5_mono,
    criterio4_mono.
  rewrite !criterio3_score, !criterio2_score, !criterio1_score.
  repeat apply Qplus_le_compat; try apply Qle_refl.
  - now apply coveragePoints_mono.
  - now apply blockPoints_mono.
  - now apply wordPoints_mono.
Qed.

Lemma score_monotone_in_density_witness :
  (score (scoreCriteria (TextDensityAnalysis.mk 0 0 12 2 90 8)
                        (BarcodeQRAnalysis.mk false false (3 # 10)) false
                        fullLabelOCR)
   <= score (scoreCriteria (TextDensityAnalysis.mk 0 0 50 6 90 40)
                           (BarcodeQRAnalysis.mk false false (3 # 10)) false
                           fullLabelOCR))%Q.
Proof.
  apply score_monotone_in_density; cbn; [discriminate | lia | lia].
Defined.

End ScoreBounds.

(** ** Batch coordinator: chunking and the result map *)

Section Chunking.
Import LabelDetectionService Spec.

Lemma concat_nonempty {T : Type} (c : list T) (cs : list (list T)) :
  c <> [] -> concat (c :: cs) <> [].
Proof. destruct c; [done | discriminate]. Qed.

Lemma chunkLoop_chunks {T : Type} (fuel : nat) (array : list T)
    (chunkSize i : nat) (chunks : list (list T)) :
  0 < chunkSize -> length array - i < fuel ->
  exists rest,
    chunkLoop fuel array chunkSize i chunks = Some (chunks ++ rest) /\
    concat rest = drop i array /\
    Forall (fun c => 1 <= length c <= chunkSize) rest /\
    (forall k c, rest !! k = Some c -> S k < length rest ->
                 length c = chunkSize) /\
    length array - i <= length rest * chunkSize < length array - i + chunkSize.
Proof.
  intros Hsize. revert i chunks.
  induction fuel as [| fuel IH]; intros i chunks Hfuel; [lia |].
  simpl. destruct (i <? length array) eqn:E.
  - apply Nat.ltb_lt in E.
    destruct (IH (i + chunkSize) (chunks ++ [slice array i (i + chunkSize)]))
      as (rest & Hrest & Hcat & Hall & Hfull & Hcount); [lia |].
    assert (Hslice : slice array i (i + chunkSize) = take chunkSize (drop i array)).
    { unfold slice. f_equal. lia. }
    assert (Hlen : length (slice array i (i + chunkSize))
                   = Nat.min chunkSize (length array - i)).
    { rewrite Hslice, length_take, length_drop. reflexivity. }
    exists (slice array i (i + chunkSize) :: rest). repeat split.
    + rewrite Hrest. now rewrite <- app_assoc.
    + simpl. rewrite Hcat, Hslice, <- drop_drop. apply take_drop.
    + constructor; [lia | exact Hall].
    + intros k c Hk Hlt. destruct k as [| k].
      * injection Hk as <-. rewrite Hlen.
        destruct rest as [| c' rest']; [simpl in Hlt; lia |].
        apply Forall_cons in Hall as [Hc' _].
        assert (Hne : drop (i + chunkSize) array <> []).
        { rewrite <- Hcat. apply concat_nonempty. destruct c'; simpl in *; [lia | done]. }
        assert (length (drop (i + chunkSize) array) <> 0)
          by (destruct (drop (i + chunkSize) array); simpl; congruence).
        rewrite length_drop in *. lia.
      * simpl in Hk, Hlt. apply (Hfull k c Hk). lia.
    + cbn [length Nat.mul]. lia.
    + clear Hfull Hall Hcat Hrest. destruct rest as [| c rest'];
        cbn [length Nat.mul] in *; lia.
  - apply Nat.ltb_ge in E. exists []. repeat split.
    + now rewrite app_nil_r.
    + simpl. symmetry. now apply drop_ge.
    + constructor.
    + intros k c Hk. discriminate Hk.
    + simpl. lia.
    + simpl. lia.
Qed.

(** With a positive chunk size [chunkArray] returns; the chunks put end
    to end give the array back, no chunk is empty or longer than the
    chunk size, every chunk but the last is full, and there are
    ceil(n / chunkSize) of them. *)
Theorem chunkArray_chunks {T : Type} (array : list T) (chunkSize : nat) :
  0 < chunkSize ->
  exists chunks,
    chunkArray array chunkSize = Some chunks /\
    concat chunks = array /\
    Forall (fun c => 1 <= length c <= chunkSize) chunks /\
    (forall k c, chunks !! k = Some c -> S k < length chunks ->
                 length c = chunkSize) /\
    length chunks = (length array + chunkSize - 1) / chunkSize.
Proof.
  intros Hsize. unfold chunkArray.
  destruct (chunkLoop_chunks (S (length array)) array chunkSize 0 [] Hsize)
    as (rest & H1 & H2 & H3 & H4 & H5); [lia |].
  exists rest. repeat split; try assumption.
  rewrite Nat.sub_0_r in H5.
  apply (Nat.div_unique _ _ _ (length array + chunkSize - 1
                               - length rest * chunkSize)); lia.
Qed.

Lemma chunkArray_chunks_witness :
  exists chunks,
    chunkArray [1; 2; 3; 4; 5; 6; 7; 8; 9] 4 = Some chunks /\
    length chunks = 3.
Proof.
  destruct (chunkArray_chunks [1; 2; 3; 4; 5; 6; 7; 8; 9] 4)
    as (chunks & H1 & _ & _ & _ & H5); [lia |].
  exists chunks. split; [exact H1 | exact H5].
Defined.

(** With a chunk size of 0 the loop of [chunkArray] makes no progress on
    a non-empty array: no amount of fuel lets it return, and the batch
    call does not return either.  An empty batch returns an empty map
    whatever the chunk size. *)
Theorem zero_chunk_size_never_returns {T : Type} (array : list T)
    (acquire : ProductImage.t -> Settled (OCRResult.t * (Q * Q)))
    (elapsed : ProductImage.t -> Q) (images : list ProductImage.t) :
  (array <> [] -> forall fuel chunks, chunkLoop fuel array 0 0 chunks = None) /\
  (images <> [] -> detectLabelsInBatch acquire elapsed 0 images = None) /\
  (forall workerPoolSize,
     detectLabelsInBatch acquire elapsed workerPoolSize [] = Some ∅).
Proof.
  assert (Hloop : forall (U : Type) (l : list U), l <> [] ->
             forall fuel chunks, chunkLoop fuel l 0 0 chunks = None).
  { intros U l Hne fuel. induction fuel as [| fuel IH]; intros chunks;
      [reflexivity |].
    simpl. destruct l as [| x l]; [done |]. simpl. apply IH. }
  split; [| split].
  - apply Hloop.
  - intros Hne. unfold detectLabelsInBatch, chunkArray.
    now rewrite Hloop.
  - intros workerPoolSize. reflexivity.
Qed.

Lemma zero_chunk_size_never_returns_witness :
  detectLabelsInBatch sampleAcquire sampleElapsed 0 [imageWithId "a"] = None.
Proof.
  destruct (zero_chunk_size_never_returns [imageWithId "a"] sampleAcquire
              sampleElapsed [imageWithId "a"]) as (_ & H & _).
  apply H. discriminate.
Defined.

Section ResultMap.
Variable acquire : ProductImage.t -> Settled (OCRResult.t * (Q * Q)).
Variable elapsed : ProductImage.t -> Q.

Local Abbreviation run := (detectLabel acquire elapsed).

Lemma batch_storeAll (workerPoolSize : nat) (images : list ProductImage.t) :
  0 < workerPoolSize ->
  detectLabelsInBatch acquire elapsed workerPoolSize images =
  Some (storeAll run images ∅).
Proof.
  intros Hsize. unfold detectLabelsInBatch.
  destruct (chunkArray_spec images workerPoolSize Hsize) as (chunks & -> & Hcat).
  now rewrite store_chunks, Hcat.
Qed.


Lemma storeAll_dom (images : list ProductImage.t)
    (results : gmap jsstring LabelDetectionResult.t) :
  dom (storeAll run images results) =
  dom results ∪ list_to_set (ProductImage._id <$> images).
Proof.
  revert results. induction images as [| x xs IH]; intros results.
  - cbn. now rewrite union_empty_r_L.
  - rewrite storeAll_cons, IH, dom_insert_L.
    cbn [fmap list_fmap list_to_set].
    rewrite (union_comm_L {[ProductImage._id x]} (dom results)).
    now rewrite union_assoc_L.
Qed.

(** Without any assumption on the identifiers: the map has one entry per
    distinct identifier, and the entry of an identifier is the record of
    the last image of the batch that carries it. *)
Theorem batch_last_write_wins (workerPoolSize : nat)
    (images : list ProductImage.t) :
  0 < workerPoolSize ->
  exists results,
    detectLabelsInBatch acquire elapsed workerPoolSize images = Some results /\
    size results = length (remove_dups (ProductImage._id <$> images)) /\
    (forall id, id ∉ (ProductImage._id <$> images) -> results !! id = None) /\
    (forall pre image post,
       images = pre ++ image :: post ->
       ProductImage._id image ∉ (ProductImage._id <$> post) ->
       results !! ProductImage._id image = Some (settledRecord (run image))).
Proof.
  intros Hsize. exists (storeAll run images ∅).
  split; [now apply batch_storeAll |]. split; [| split].
  - rewrite <- size_dom, storeAll_dom, dom_empty_L, union_empty_l_L.
    rewrite <- (size_list_to_set (C:=gset jsstring)
                  (remove_dups (ProductImage._id <$> images)))
      by apply NoDup_remove_dups.
    f_equal. apply set_eq. intros id.
    now rewrite !elem_of_list_to_set, elem_of_remove_dups.
  - intros id Hid. now rewrite storeAll_lookup_other.
  - intros pre image post -> Hpost.
    rewrite storeAll_app, storeAll_cons, storeAll_lookup_other by exact Hpost.
    apply lookup_insert_eq.
Qed.

End ResultMap.


Lemma batch_last_write_wins_witness :
  exists results,
    detectLabelsInBatch sampleAcquire sampleElapsed 2
      [imageWithId "a"; imageWithId "b"; imageWithId "a"] = Some results /\
    size results = 2.
Proof.
  destruct (batch_last_write_wins sampleAcquire sampleElapsed 2
              [imageWithId "a"; imageWithId "b"; imageWithId "a"])
    as (results & H1 & H2 & _); [lia |].
  exists results. split; [exact H1 |]. rewrite H2. reflexivity.
Defined.

End Chunking.

(** ** Choosing among OCR variants *)

Section Variants.
Import TesseractService Spec.

Variable Buffer : Type.
Variable recognizeText : Buffer -> Settled OCRResult.t.

Lemma pickBest_first_maximum (first : OCRResult.t) (rest : list OCRResult.t) :
  exists pre post,
    first :: rest = pre ++ foldl pickBest first rest :: post /\
    Forall (fun r => (variantScore r < variantScore (foldl pickBest first rest))%Q)
           pre /\
    Forall (fun r => (variantScore r <= variantScore (foldl pickBest first rest))%Q)
           post.
Proof.
  revert first. induction rest as [| c rest IH]; intros first.
  - exists [], []. repeat split; constructor.
  - cbn [foldl].
    destruct (Qle_bool (variantScore c) (variantScore first)) eqn:E.
    + assert (Hstep : pickBest first c = first)
        by (unfold pickBest; now rewrite E).
      rewrite Hstep. apply Qle_bool_iff in E.
      destruct (IH first) as (pre & post & Hsplit & Hpre & Hpost).
      set (best := foldl pickBest first rest) in *.
      destruct pre as [| p pre].
      * injection Hsplit as Hb Hr. exists [], (c :: post). split; [| split].
        -- cbn [app]. now rewrite <- Hb, Hr.
        -- constructor.
        -- constructor; [now rewrite <- Hb | exact Hpost].
      * injection Hsplit as Hp Hr. subst p.
        exists (first :: c :: pre), post. split; [| split].
        -- cbn [app]. now rewrite Hr at 1.
        -- apply Forall_cons in Hpre as [Hfirst Hpre].
           repeat constructor; [exact Hfirst | | exact Hpre].
           eapply Qle_lt_trans; eassumption.
        -- exact Hpost.
    + assert (Hstep : pickBest first c = c)
        by (unfold pickBest; now rewrite E).
      rewrite Hstep.
      assert (Hlt : (variantScore first < variantScore c)%Q).
      { apply Qnot_le_lt. intros H. apply Qle_bool_iff in H. congruence. }
      destruct (IH c) as (pre & post & Hsplit & Hpre & Hpost).
      set (best := foldl pickBest c rest) in *.
      exists (first :: pre), post. split; [| split].
      * cbn [app]. now rewrite Hsplit.
      * constructor; [| exact Hpre].
        destruct pre as [| p pre].
        -- injection Hsplit as Hb _. now rewrite <- Hb.
        -- injection Hsplit as Hp _. subst p.
           apply Forall_cons in Hpre as [Hc _].
           eapply Qlt_trans; eassumption.
      * exact Hpost.
Qed.

Lemma omap_split (f : Buffer -> option OCRResult.t) (buffers : list Buffer)
    (vpre : list OCRResult.t) (best : OCRResult.t) (vpost : list OCRResult.t) :
  omap f buffers = vpre ++ best :: vpost ->
  exists pre b post,
    buffers = pre ++ b :: post /\ omap f pre = vpre /\ f b = Some best /\
    omap f post = vpost.
Proof.
  revert vpre. induction buffers as [| x xs IH]; intros vpre H.
  - destruct vpre; discriminate H.
  - cbn [omap list_omap] in H. destruct (f x) as [r |] eqn:Ex.
    + destruct vpre as [| v vpre].
      * injection H as -> H. exists [], x, xs. repeat split; assumption.
      * injection H as -> H. destruct (IH _ H) as (pre & b & post & -> & Hp & Hb & Hq).
        exists (x :: pre), b, post. repeat split; try assumption.
        cbn [omap list_omap]. now rewrite Ex, Hp.
    + destruct (IH _ H) as (pre & b & post & -> & Hp & Hb & Hq).
      exists (x :: pre), b, post. repeat split; try assumption.
      cbn [omap list_omap]. now rewrite Ex.
Qed.

Lemma omap_id_fmap {A B : Type} (f : A -> option B) (l : list A) :
  omap id (f <$> l) = omap f l.
Proof.
  induction l as [| x l IH]; [reflexivity |].
  cbn [fmap list_fmap omap list_omap]. rewrite IH. now destruct (f x).
Qed.

Lemma recognizeOrNull_Some b r :
  recognizeOrNull Buffer recognizeText b = Some r <-> recognizeText b = Fulfilled r.
Proof.
  unfold recognizeOrNull. destruct (recognizeText b); split; congruence.
Qed.

(** The choice among variants fails exactly when every variant fails
    (an empty list included), and then with its own fixed error. *)
Theorem multiVariant_rejects_iff (imageBuffers : list Buffer) :
  (exists reason,
     recognizeTextMultiVariant Buffer recognizeText imageBuffers = Rejected reason)
  <-> Forall (fun b => exists e, recognizeText b = Rejected e) imageBuffers.
Proof.
  unfold recognizeTextMultiVariant. rewrite omap_id_fmap.
  induction imageBuffers as [| b bs IH].
  - split; [constructor | intros _; eexists; reflexivity].
  - cbn [omap list_omap]. unfold recognizeOrNull at 1 3.
    destruct (recognizeText b) as [r | e] eqn:Eb.
    + split.
      * intros [reason H]. discriminate H.
      * intros H. apply Forall_cons in H as [[e He] _]. congruence.
    + rewrite Forall_cons, <- IH. split.
      * intros H. split; [now exists e | exact H].
      * intros [_ H]. exact H.
Qed.

(** When the choice succeeds, the result is the OCR result of one of the
    variants; every variant before it that succeeded scores strictly
    less, and every variant after it that succeeded scores at most as
    much: the first best variant wins. *)
Theorem multiVariant_first_best (imageBuffers : list Buffer)
    (best : OCRResult.t) :
  recognizeTextMultiVariant Buffer recognizeText imageBuffers = Fulfilled best ->
  exists pre b post,
    imageBuffers = pre ++ b :: post /\
    recognizeText b = Fulfilled best /\
    (forall b' r, b' ∈ pre -> recognizeText b' = Fulfilled r ->
                  (variantScore r < variantScore best)%Q) /\
    (forall b' r, b' ∈ post -> recognizeText b' = Fulfilled r ->
                  (variantScore r <= variantScore best)%Q).
Proof.
  unfold recognizeTextMultiVariant. rewrite omap_id_fmap.
  destruct (omap _ imageBuffers) as [| first rest] eqn:E; [discriminate |].
  intros H. injection H as <-.
  destruct (pickBest_first_maximum first rest)
    as (vpre & vpost & Hsplit & Hpre & Hpost).
  rewrite Hsplit in E.
  destruct (omap_split _ _ _ _ _ E) as (pre & b & post & -> & Hp & Hb & Hq).
  exists pre, b, post. split; [reflexivity |].
  split; [now apply recognizeOrNull_Some |]. split.
  - intros b' r Hin Hr. rewrite Forall_forall in Hpre. apply Hpre.
    rewrite <- Hp. apply list_elem_of_omap. exists b'.
    split; [exact Hin | now apply recognizeOrNull_Some].
  - intros b' r Hin Hr. rewrite Forall_forall in Hpost. apply Hpost.
    rewrite <- Hq. apply list_elem_of_omap. exists b'.
    split; [exact Hin | now apply recognizeOrNull_Some].
Qed.

End Variants.

Lemma multiVariant_rejects_iff_witness :
  exists reason,
    TesseractService.recognizeTextMultiVariant nat Spec.sampleRecognize [0; 0]
    = Rejected reason.
Proof.
  apply (multiVariant_rejects_iff nat Spec.sampleRecognize [0; 0]).
  repeat constructor; eexists; reflexivity.
Defined.

Lemma multiVariant_first_best_witness :
  exists pre b post,
    [0; 1; 2] = pre ++ b :: post /\
    Spec.sampleRecognize b = Fulfilled Spec.twoWords.
Proof.
  destruct (multiVariant_first_best nat Spec.sampleRecognize [0; 1; 2]
              Spec.twoWords) as (pre & b & post & H1 & H2 & _).
  - reflexivity.
  - exists pre, b, post. split; [exact H1 | exact H2].
Defined.

(** ** Tolerance of the fuzzy search *)

Section Tolerance.
Import ImageAnalysisService Spec.

Lemma lowerUnit_idem c : lowerUnit (lowerUnit c) = lowerUnit c.
Proof.
  unfold lowerUnit.
  destruct ((65 <=? c) && (c <=? 90))%N eqn:E1.
  - apply andb_true_iff in E1 as [H1 H2]. apply N.leb_le in H1, H2.
    assert (((65 <=? c + 32) && (c + 32 <=? 90))%N = false) as ->.
    { apply andb_false_iff. right. apply N.leb_gt. lia. }
    assert (((192 <=? c + 32) && (c + 32 <=? 222) && negb (c + 32 =? 215))%N
            = false) as ->; [| reflexivity].
    apply andb_false_iff. left. apply andb_false_iff. left. apply N.leb_gt. lia.
  - destruct ((192 <=? c) && (c <=? 222) && negb (c =? 215))%N eqn:E2.
    + apply andb_true_iff in E2 as [E2 _].
      apply andb_true_iff in E2 as [H1 H2]. apply N.leb_le in H1, H2.
      assert (((65 <=? c + 32) && (c + 32 <=? 90))%N = false) as ->.
      { apply andb_false_iff. right. apply N.leb_gt. lia. }
      assert (((192 <=? c + 32) && (c + 32 <=? 222) && negb (c + 32 =? 215))%N
              = false) as ->; [| reflexivity].
      apply andb_false_iff. left. apply andb_false_iff. right.
      apply N.leb_gt. lia.
    + now rewrite E1, E2.
Qed.

Lemma toLowerCase_idem s : toLowerCase (toLowerCase s) = toLowerCase s.
Proof.
  unfold toLowerCase. rewrite <- list_fmap_compose.
  apply list_fmap_ext. intros _ c _. apply lowerUnit_idem.
Qed.

(** One wrong, missing or extra character in a word of the text still
    matches a keyword of four characters or more at the default threshold
    of 0.75. *)
Theorem fuzzySearch_one_error (text keyword word : jsstring) :
  word ∈ splitWs (toLowerCase text) ->
  levenshteinDistance (toLowerCase word) (toLowerCase keyword) <= 1 ->
  4 <= length keyword ->
  fuzzySearch text keyword (75 # 100) = true.
Proof.
  intros Hin Hd Hlen. unfold fuzzySearch.
  destruct (includes (toLowerCase text) (toLowerCase keyword)); [done |].
  assert (E : existsb
            (fun w =>
               (Z.of_nat (length (toLowerCase keyword)) - 2 <=?
                  Z.of_nat (length w))%Z
               && Qle_bool (75 # 100) (similarity w (toLowerCase keyword)))
            (splitWs (toLowerCase text)) = true); [| now rewrite E].
  apply existsb_exists. exists word. split; [now apply list_elem_of_In |].
  pose proof (distance_bounds (toLowerCase word)
                                         (toLowerCase keyword)) as [Hlow _].
  rewrite !toLowerCase_length in Hlow.
  apply andb_true_iff. split.
  - apply Z.leb_le. rewrite toLowerCase_length. lia.
  - apply Qle_bool_iff. unfold similarity.
    rewrite !toLowerCase_length.
    set (d := levenshteinDistance (toLowerCase word) (toLowerCase keyword)) in *.
    destruct (length keyword <? length word) eqn:E;
      [apply Nat.ltb_lt in E | apply Nat.ltb_ge in E];
      rewrite ?toLowerCase_idem, ?toLowerCase_length.
    + destruct (length word =? 0) eqn:E0; [apply Nat.eqb_eq in E0; lia |].
      apply Nat.eqb_neq in E0. fold d.
      apply Qle_shift_div_l; [now apply ofNat_pos |].
      assert (H4 : (4 <= ofNat (length word))%Q) by (apply (ofNat_le 4); lia).
      assert (H1 : (ofNat d <= 1)%Q) by (apply (ofNat_le _ 1); lia).
      generalize dependent (ofNat (length word)).
      generalize dependent (ofNat d). intros. lra.
    + destruct (length keyword =? 0) eqn:E0; [apply Nat.eqb_eq in E0; lia |].
      apply Nat.eqb_neq in E0.
      rewrite (distance_sym (toLowerCase keyword)). fold d.
      apply Qle_shift_div_l; [now apply ofNat_pos |].
      assert (H4 : (4 <= ofNat (length keyword))%Q) by (apply (ofNat_le 4); lia).
      assert (H1 : (ofNat d <= 1)%Q) by (apply (ofNat_le _ 1); lia).
      generalize dependent (ofNat (length keyword)).
      generalize dependent (ofNat d). intros. lra.
Qed.

Lemma fuzzySearch_one_error_witness :
  fuzzySearch (js "Valor Nutricionl") (js "nutricional") (75 # 100) = true.
Proof.
  apply (fuzzySearch_one_error _ _ (js "nutricionl")).
  - apply list_elem_of_In. vm_compute. tauto.
  - vm_compute. lia.
  - vm_compute. lia.
Defined.

Lemma fuzzySearch_threshold_mono_witness :
  fuzzySearch (js "Valor Nutricionl") (js "nutricional") (7 # 10) = true.
Proof.
  apply (fuzzySearch_threshold_mono _ _ (7 # 10) (75 # 100)).
  - vm_compute. discriminate.
  - vm_compute. reflexivity.
Defined.

End Tolerance.

(** ** Blank OCR text *)

Section BlankText.
Import ImageAnalysisService LabelDetectionService Spec.

Lemma isWhiteSpace_cases c :
  isWhiteSpace c = true ->
  (9 <= c <= 13 \/ c = 32 \/ c = 160 \/ c = 5760 \/ 8192 <= c <= 8202
   \/ c = 8232 \/ c = 8233 \/ c = 8239 \/ c = 8287 \/ c = 12288 \/ c = 65279)%N.
Proof.
  unfold isWhiteSpace.
  rewrite !orb_true_iff, !andb_true_iff, !N.leb_le, !N.eqb_eq. tauto.
Qed.

Lemma lowerUnit_ws c : isWhiteSpace c = true -> lowerUnit c = c.
Proof.
  intros H. apply isWhiteSpace_cases in H. unfold lowerUnit.
  assert (((65 <=? c) && (c <=? 90))%N = false) as ->.
  { apply andb_false_iff.
    destruct (N.leb_spec 65 c); [right; apply N.leb_gt; lia | now left]. }
  assert (((192 <=? c) && (c <=? 222) && negb (c =? 215))%N = false) as ->;
    [| reflexivity].
  apply andb_false_iff. left. apply andb_false_iff.
  destruct (N.leb_spec 192 c); [right; apply N.leb_gt; lia | now left].
Qed.

Lemma blank_Forall s :
  existsb nonWs s = false <-> Forall (fun c => isWhiteSpace c = true) s.
Proof.
  induction s as [| c s IH]; simpl; [split; [constructor | done] |].
  rewrite orb_false_iff, IH, Forall_cons. unfold nonWs.
  destruct (isWhiteSpace c); simpl; intuition congruence.
Qed.

Lemma toLowerCase_blank s :
  existsb nonWs s = false -> toLowerCase s = s.
Proof.
  rewrite blank_Forall. induction 1 as [| c s Hc _ IH]; [reflexivity |].
  unfold toLowerCase in *. cbn [fmap list_fmap]. rewrite lowerUnit_ws by exact Hc.
  f_equal. exact IH.
Qed.

Lemma includes_blank s p :
  existsb nonWs s = false -> existsb nonWs p = true -> includes s p = false.
Proof.
  intros Hs Hp. destruct (includes s p) eqn:E; [| reflexivity].
  apply includes_spec in E as (pre & post & ->).
  rewrite !existsb_app, Hp in Hs. rewrite orb_true_l, orb_true_r in Hs.
  discriminate Hs.
Qed.

Lemma splitWsFrom_blank inRun s :
  existsb nonWs s = false ->
  Forall (fun w => w = []) (splitWsFrom inRun [] s).
Proof.
  revert inRun. induction s as [| c s IH]; intros inRun H; simpl in *.
  - repeat constructor.
  - apply orb_false_iff in H as [Hc Hs]. unfold nonWs in Hc.
    destruct (isWhiteSpace c); [| discriminate Hc].
    destruct inRun; [now apply IH |]. constructor; [reflexivity | now apply IH].
Qed.

Lemma splitWsFrom_pieces inRun cur s :
  existsb isWhiteSpace cur = false ->
  Forall (fun w => existsb isWhiteSpace w = false) (splitWsFrom inRun cur s).
Proof.
  revert inRun cur. induction s as [| c s IH]; intros inRun cur Hcur; simpl.
  - constructor; [now rewrite existsb_rev | constructor].
  - destruct (isWhiteSpace c) eqn:Ec.
    + destruct inRun; [now apply IH |].
      constructor; [now rewrite existsb_rev | now apply IH].
    + apply IH. simpl. now rewrite Ec, Hcur.
Qed.

Lemma splitWsFrom_nonempty inRun cur s : 1 <= length (splitWsFrom inRun cur s).
Proof.
  revert inRun cur. induction s as [| c s IH]; intros inRun cur; simpl; [lia |].
  destruct (isWhiteSpace c); [destruct inRun; simpl; [apply IH | lia] | apply IH].
Qed.

Lemma nonWs_of_piece w :
  existsb isWhiteSpace w = false -> 0 < length w -> existsb nonWs w = true.
Proof.
  destruct w as [| c w]; simpl; [lia |]. intros H _.
  apply orb_false_iff in H as [Hc _]. unfold nonWs. now rewrite Hc.
Qed.

Lemma filter_none {A : Type} (f : A -> bool) (l : list A) :
  Forall (fun x => f x = false) l -> List.filter f l = [].
Proof.
  induction 1 as [| x l Hx _ IH]; [reflexivity |]. simpl. now rewrite Hx.
Qed.

Lemma existsb_none {A : Type} (f : A -> bool) (l : list A) :
  Forall (fun x => f x = false) l -> existsb f l = false.
Proof.
  induction 1 as [| x l Hx _ IH]; [reflexivity |]. simpl. now rewrite Hx.
Qed.

(** On a blank text no keyword that has a visible character is found,
    whatever the positive threshold. *)
Lemma fuzzySearch_blank (text keyword : jsstring) (threshold : Q) :
  existsb nonWs text = false ->
  existsb nonWs (toLowerCase keyword) = true ->
  (0 < threshold)%Q ->
  fuzzySearch text keyword threshold = false.
Proof.
  intros Htext Hkw Hth. unfold fuzzySearch.
  rewrite (toLowerCase_blank text Htext).
  set (k := toLowerCase keyword) in *.
  rewrite (includes_blank _ _ Htext Hkw).
  assert (Hk : 0 < length k) by (destruct k; [discriminate Hkw | simpl; lia]).
  assert (E1 : existsb
            (fun word =>
               (Z.of_nat (length k) - 2 <=? Z.of_nat (length word))%Z
               && Qle_bool threshold (similarity word k))
            (splitWs text) = false).
  { apply existsb_none. eapply Forall_impl; [apply splitWsFrom_blank, Htext |].
    intros w ->. apply andb_false_iff. right.
    destruct (Qle_bool threshold (similarity [] k)) eqn:E; [| reflexivity].
    apply Qle_bool_iff in E. exfalso.
    assert (Hsim : (similarity [] k == 0)%Q).
    { unfold similarity. cbn [length]. change (length k <? 0) with false.
      cbv iota. destruct (length k =? 0) eqn:E0;
        [apply Nat.eqb_eq in E0; lia |].
      pose proof (distance_bounds (toLowerCase k) (toLowerCase []))
        as [Hlow Hup].
      rewrite !toLowerCase_length in Hlow, Hup. cbn [length] in Hlow, Hup.
      assert (Hd : levenshteinDistance (toLowerCase k) (toLowerCase []) = length k)
        by lia.
      rewrite Hd. field. apply ofNat_nonzero. lia. }
    rewrite Hsim in E. eapply Qlt_not_le; eassumption. }
  rewrite E1.
  assert (E2 : List.filter
            (fun part => (3 <? length part) && includes text part)
            (splitWs k) = []).
  { apply filter_none.
    eapply Forall_impl; [apply (splitWsFrom_pieces false [] k); reflexivity |].
    intros part Hpart. cbn beta.
    destruct (3 <? length part) eqn:E3; [| reflexivity].
    apply Nat.ltb_lt in E3. cbn [andb].
    apply includes_blank; [exact Htext |].
    apply nonWs_of_piece; [exact Hpart | lia]. }
  rewrite E2. cbn [length]. apply Z.leb_gt.
  pose proof (splitWsFrom_nonempty false [] k) as Hn. fold (splitWs k) in Hn.
  assert (Hpos : (0 < ofNat (length (splitWs k)) * (6 # 10))%Q).
  { apply Qmult_lt_0_compat; [apply ofNat_pos; lia | reflexivity]. }
  pose proof (Qle_ceiling (ofNat (length (splitWs k)) * (6 # 10))) as Hc.
  assert (Hz : (0 < inject_Z (Qceiling (ofNat (length (splitWs k)) * (6 # 10))))%Q)
    by (eapply Qlt_le_trans; eassumption).
  change 0%Q with (inject_Z 0) in Hz. rewrite <- Zlt_Qlt in Hz.
  change (Z.of_nat 0) with 0%Z. exact Hz.
Qed.

Lemma matchFuel_leading (r : Regex.regex) (p : N -> bool) :
  leading r = Some p -> rejectsWs p ->
  forall f prev s k, blankHead s -> Regex.matchFuel (S f) r prev s k = None.
Proof.
  revert p. induction r as [| q | a IHa b _ | | |]; intros p Hl Hp f prev s k Hs;
    try discriminate Hl.
  - injection Hl as ->. destruct s as [| c s]; [reflexivity |].
    cbn. now rewrite (Hp c Hs).
  - rewrite matchFuel_Seq. now apply (IHa p).
Qed.

Lemma blank_suffix_head s : existsb nonWs s = false -> blankHead s.
Proof.
  destruct s as [| c s]; simpl; [done |]. intros H.
  apply orb_false_iff in H as [Hc _]. unfold nonWs in Hc.
  now destruct (isWhiteSpace c).
Qed.

Lemma test_blank (r : Regex.regex) (p : N -> bool) (s : jsstring) :
  leading r = Some p -> rejectsWs p -> existsb nonWs s = false ->
  (forall prev, Regex.testFrom r prev s = false) /\
  (forall fuel prev, Regex.countFrom fuel r prev s = 0).
Proof.
  intros Hl Hp. induction s as [| c s IH]; intros Hs.
  - split.
    + intros prev. cbn [Regex.testFrom]. unfold Regex.matchAt.
      now rewrite (matchFuel_leading r p Hl Hp).
    + intros [| fuel] prev; [reflexivity |]. cbn [Regex.countFrom].
      unfold Regex.matchAt. now rewrite (matchFuel_leading r p Hl Hp).
  - pose proof (blank_suffix_head _ Hs) as Hhead.
    simpl in Hs. apply orb_false_iff in Hs as [_ Hs]. destruct (IH Hs) as [IHt IHc].
    split.
    + intros prev. cbn [Regex.testFrom]. unfold Regex.matchAt.
      rewrite (matchFuel_leading r p Hl Hp) by exact Hhead. apply IHt.
    + intros [| fuel] prev; [reflexivity |]. cbn [Regex.countFrom].
      unfold Regex.matchAt.
      rewrite (matchFuel_leading r p Hl Hp) by exact Hhead. apply IHc.
Qed.

Lemma digit_rejectsWs : rejectsWs isDigit.
Proof.
  intros c Hc. apply isWhiteSpace_cases in Hc. unfold isDigit.
  apply andb_false_iff.
  destruct (N.leb_spec 48 c); [right; apply N.leb_gt; lia | now left].
Qed.

Lemma unit_rejectsWs x : isWhiteSpace x = false -> rejectsWs (N.eqb x).
Proof.
  intros Hx c Hc. apply N.eqb_neq. intros ->. congruence.
Qed.

Lemma unitI_rejectsWs x :
  (48 <= Regex.asciiUpper x)%N ->
  rejectsWs (fun d => (d <? 128)%N && (Regex.asciiUpper d =? Regex.asciiUpper x)%N).
Proof.
  intros Hx c Hc. apply isWhiteSpace_cases in Hc. apply andb_false_iff.
  destruct (N.ltb_spec c 128); [right | now left].
  apply N.eqb_neq. unfold Regex.asciiUpper at 1.
  assert (((97 <=? c) && (c <=? 122))%N = false) as ->.
  { apply andb_false_iff. left. apply N.leb_gt. lia. }
  lia.
Qed.

Lemma keywords_visible :
  Forall (fun k => existsb nonWs (toLowerCase k) = true)
         (qrPatterns ++ barcodePatterns ++ nutritionalKeywords
          ++ ingredientKeywords ++ storageKeywords ++ manufacturerKeywords)
  /\ Forall (fun k => existsb nonWs k = true) shortNutritionalWords.
Proof. split; repeat constructor. Qed.

Lemma regexes_leading :
  Forall (fun r => exists p, leading r = Some p /\ rejectsWs p)
         ([longNumberRe; tablePatternRe; pipeRe; nutritionalUnitsRe; portionRe]
          ++ partialMatches).
Proof.
  unfold partialMatches. cbn [app].
  repeat (constructor;
          [ eexists; split; [reflexivity |];
            first [ exact digit_rejectsWs
                  | apply unit_rejectsWs; reflexivity
                  | apply unitI_rejectsWs; vm_compute; discriminate ] | ]).
  constructor.
Qed.

Lemma fuzzy_none (text : jsstring) (threshold : Q) (keywords : list jsstring) :
  existsb nonWs text = false -> (0 < threshold)%Q ->
  Forall (fun k => existsb nonWs (toLowerCase k) = true) keywords ->
  Forall (fun k => fuzzySearch text k threshold = false) keywords.
Proof.
  intros Ht Hth Hks. eapply Forall_impl; [exact Hks |].
  intros k Hk. now apply fuzzySearch_blank.
Qed.

(** No detector fires on a text that consists of white space only. *)
Lemma detectors_blank (ocr : OCRResult.t) :
  existsb nonWs (OCRResult.text ocr) = false ->
  detectBarcodeQR ocr = BarcodeQRAnalysis.mk false false (3 # 10)
  /\ hasNutritionalInfo ocr = false
  /\ hasIngredients ocr = false
  /\ hasStorageInfo ocr = false
  /\ hasManufacturerInfo ocr = false.
Proof.
  intros Ht.
  destruct keywords_visible as [Hk Hshort].
  rewrite !Forall_app in Hk.
  destruct Hk as (Hqr & Hbar & Hnut & Hing & Hsto & Hman).
  pose proof regexes_leading as Hre.
  cbn [app] in Hre. unfold partialMatches in Hre.
  rewrite !Forall_cons in Hre.
  destruct Hre as ((p1 & L1 & R1) & (p2 & L2 & R2) & (p3 & L3 & R3)
                   & (p4 & L4 & R4) & (p5 & L5 & R5) & (p6 & L6 & R6)
                   & (p7 & L7 & R7) & (p8 & L8 & R8) & (p9 & L9 & R9)
                   & (p10 & L10 & R10) & _).
  assert (Hth7 : (0 < 7 # 10)%Q) by reflexivity.
  assert (Hth75 : (0 < 75 # 100)%Q) by reflexivity.
  repeat split.
  - unfold detectBarcodeQR.
    rewrite (existsb_none _ _ (fuzzy_none _ _ _ Ht Hth7 Hqr)).
    rewrite (existsb_none _ _ (fuzzy_none _ _ _ Ht Hth7 Hbar)).
    unfold Regex.matchCount.
    rewrite (proj2 (test_blank _ _ _ L1 R1 Ht)). reflexivity.
  - unfold hasNutritionalInfo.
    rewrite (filter_none _ _ (fuzzy_none _ _ _ Ht Hth7 Hnut)).
    unfold Regex.test, Regex.matchCount.
    rewrite (proj1 (test_blank _ _ _ L2 R2 Ht)).
    rewrite (proj2 (test_blank _ _ _ L3 R3 Ht)).
    rewrite (proj2 (test_blank _ _ _ L4 R4 Ht)).
    rewrite (proj1 (test_blank _ _ _ L5 R5 Ht)).
    rewrite (toLowerCase_blank _ Ht).
    rewrite (filter_none (fun word => includes (OCRResult.text ocr) word)
                         shortNutritionalWords).
    2:{ eapply Forall_impl; [exact Hshort |]. intros w Hw.
        now apply includes_blank. }
    unfold partialMatches. cbn [List.filter].
    rewrite (proj1 (test_blank _ _ _ L6 R6 Ht)).
    rewrite (proj1 (test_blank _ _ _ L7 R7 Ht)).
    rewrite (proj1 (test_blank _ _ _ L8 R8 Ht)).
    rewrite (proj1 (test_blank _ _ _ L9 R9 Ht)).
    rewrite (proj1 (test_blank _ _ _ L10 R10 Ht)).
    reflexivity.
  - unfold hasIngredients.
    now rewrite (filter_none _ _ (fuzzy_none _ _ _ Ht Hth75 Hing)).
  - unfold hasStorageInfo.
    now rewrite (existsb_none _ _ (fuzzy_none _ _ _ Ht Hth75 Hsto)).
  - unfold hasManufacturerInfo.
    now rewrite (existsb_none _ _ (fuzzy_none _ _ _ Ht Hth75 Hman)).
Qed.

(** An OCR result with no words whose text is blank (empty once trimmed:
    spaces, tabs and line breaks only) is treated like the empty one: the
    density metrics are all zero, no detector fires, the score is 0, the
    reasoning is the fixed sentence and the image is not a label. *)
Theorem blank_ocr_scores_zero (ocr : OCRResult.t) (width height elapsed : Q) :
  OCRResult.words ocr = [] ->
  trim (OCRResult.text ocr) = [] ->
  let r := detectLabelCore ocr width height elapsed in
  LabelDetectionResult.isProductLabel r = false
  /\ (LabelDetectionResult.confidence r == 0)%Q
  /\ LabelDetectionResult.reasoning r = noCharacteristics
  /\ LabelDetectionResult.metrics r = zeroMetrics.
Proof.
  intros Hw Htrim.
  assert (Ht : existsb nonWs (OCRResult.text ocr) = false).
  { rewrite <- trim_nonempty, Htrim. reflexivity. }
  destruct (detectors_blank ocr Ht) as (Hbq & Hnut & Hing & Hsto & Hman).
  assert (Hd : analyzeTextDensity ocr width height =
               TextDensityAnalysis.mk 0 (width * height) 0 0 0 0).
  { unfold analyzeTextDensity. now rewrite Hw, Htrim. }
  assert (Hacc : scoreCriteria (analyzeTextDensity ocr width height)
                   (detectBarcodeQR ocr) (hasNutritionalInfo ocr) ocr
                 = {| score := 0; reasons := [] |}).
  { rewrite Hd, Hbq, Hnut. unfold scoreCriteria.
    unfold criterio0 at 1. rewrite Htrim. cbn [length Nat.ltb Nat.leb].
    unfold criterio5, criterio6, criterio7. rewrite Hing, Hsto, Hman.
    reflexivity. }
  unfold detectLabelCore, calculateLabelScore. cbv zeta. rewrite Hacc.
  rewrite Hd, Hbq. cbn [score reasons length Nat.ltb Nat.leb].
  split; [reflexivity | split; [reflexivity | split; reflexivity]].
Qed.

Lemma blank_ocr_scores_zero_witness :
  LabelDetectionResult.reasoning
    (detectLabelCore (textOnlyOCR "    ") 640 480 12) = noCharacteristics.
Proof.
  apply (blank_ocr_scores_zero (textOnlyOCR "    ") 640 480 12); reflexivity.
Defined.

End BlankText.
